(** * Requester: the request engine of [core/__init__.py] and the commands of
    [request_commands.py], embedded in Rocq.

    The development follows the Python sources function by function:
    - [Python]: the few builtins the code relies on ([str.splitlines],
      [str.join], [list.sort] with a key, [OrderedDict], [queue.Queue],
      the iteration protocol, [json.loads] / [json.dumps]);
    - [Core]: [RequestCommandMixin] ([parse_env_block], [make_requests],
      [gather_responses], [persist_requests]);
    - [RequestCommands]: [base_url] and [RequesterCancelRequestsCommand.run];
    - the remaining modules state and prove the properties. *)

From Stdlib Require Import List String Ascii ZArith Lia Bool Arith.
From Stdlib Require Import Sorted Permutation.
Import ListNotations.

Set Implicit Arguments.

(* ================================================================== *)
(** * Python builtins used by the sources                              *)
(* ================================================================== *)
Module Python.

Open Scope string_scope.

(** ** Exceptions and fallible computations *)

Inductive exn : Type :=
| TypeError
| AttributeError
| ValueError
| KeyError
| OSError.

(** A computation either raises or returns. *)
Definition result (A : Type) : Type := (exn + A)%type.

Definition ret {A} (a : A) : result A := inr a.
Definition raise {A} (e : exn) : result A := inl e.
Definition bind {A B} (m : result A) (k : A -> result B) : result B :=
  match m with
  | inl e => inl e
  | inr a => k a
  end.

Notation "x <- m ;; k" := (bind m (fun x => k))
  (at level 61, m at next level, right associativity).

(** ** Strings *)

(** [str.splitlines]: the line boundaries among the characters below 256.
    A text is a sequence of characters; ["\r\n"] counts as one boundary and
    a last line is produced only when it is not empty. *)
Definition is_linebreak (c : ascii) : bool :=
  let n := nat_of_ascii c in
  existsb (Nat.eqb n) [10; 11; 12; 13; 28; 29; 30; 133]%nat.

Definition CR : ascii := ascii_of_nat 13.
Definition LF : ascii := ascii_of_nat 10.

Fixpoint splitlines_from (cur : string) (s : string) : list string :=
  match s with
  | EmptyString =>
      match cur with
      | EmptyString => []
      | _ => [cur]
      end
  | String c s' =>
      if is_linebreak c then
        cur :: (if Ascii.eqb c CR then
                  match s' with
                  | String c' s'' =>
                      if Ascii.eqb c' LF then splitlines_from "" s''
                      else splitlines_from "" s'
                  | EmptyString => splitlines_from "" s'
                  end
                else splitlines_from "" s')
      else splitlines_from (cur ++ String c "") s'
  end.

Definition splitlines (s : string) : list string := splitlines_from "" s.

(** [sep.join(l)] *)
Definition join (sep : string) (l : list string) : string := String.concat sep l.

Definition newline : string := String LF "".

(** ** [list.sort(key=...)]

    Python's sort is stable and compares keys with [<]; a stable insertion
    sort on an integer key has the same result.  An element is inserted in
    front of the first element whose key is not smaller, so that among equal
    keys the original order is kept. *)
Section Sort.
Variable A : Type.
Variable key : A -> Z.

Fixpoint insert_by_key (x : A) (l : list A) : list A :=
  match l with
  | [] => [x]
  | y :: l' =>
      if (key y <? key x)%Z then y :: insert_by_key x l'
      else x :: l
  end.

Fixpoint sort_by_key (l : list A) : list A :=
  match l with
  | [] => []
  | x :: l' => insert_by_key x (sort_by_key l')
  end.

(** ascending keys *)
Definition key_le (a b : A) : Prop := (key a <= key b)%Z.
End Sort.

(** ** JSON values, as [json.loads] returns them and [json.dumps] takes them.
    Numbers are the integers (the history file holds no others). *)
#[local] Set Warnings "-register-all".
Inductive json : Type :=
| JNull
| JBool (b : bool)
| JNum (z : Z)
| JStr (s : string)
| JArr (items : list json)
| JObj (members : list (string * json)).

(** ** [collections.OrderedDict] with string keys: an association list in
    insertion order. *)
Section OrderedDict.
Variable V : Type.

Definition OrderedDict : Type := list (string * V).

Definition od_keys (d : OrderedDict) : list string := map fst d.

(** [key in d] *)
Definition od_contains (key : string) (d : OrderedDict) : bool :=
  existsb (String.eqb key) (od_keys d).

(** the mapping without [key] (the entry is unlinked from the order) *)
Fixpoint od_remove (key : string) (d : OrderedDict) : OrderedDict :=
  match d with
  | [] => []
  | (k, v) :: d' =>
      if String.eqb key k then d' else (k, v) :: od_remove key d'
  end.

(** [d.pop(key, None)] never raises *)
Definition od_pop (key : string) (d : OrderedDict) : OrderedDict :=
  od_remove key d.

(** [del d[key]] raises [KeyError] on a missing key *)
Definition od_delitem (key : string) (d : OrderedDict) : result OrderedDict :=
  if od_contains key d then ret (od_remove key d) else raise KeyError.

(** [d[key] = v]: an existing key keeps its position, a new key goes last *)
Fixpoint od_setitem (key : string) (v : V) (d : OrderedDict) : OrderedDict :=
  match d with
  | [] => [(key, v)]
  | (k, w) :: d' =>
      if String.eqb key k then (k, v) :: d'
      else (k, w) :: od_setitem key v d'
  end.

Fixpoint od_get (key : string) (d : OrderedDict) : option V :=
  match d with
  | [] => None
  | (k, v) :: d' => if String.eqb key k then Some v else od_get key d'
  end.

(** [OrderedDict(pairs)]: the pairs are assigned one after the other *)
Definition od_of_pairs (pairs : list (string * V)) : OrderedDict :=
  fold_left (fun d kv => od_setitem (fst kv) (snd kv) d) pairs [].
End OrderedDict.

(** ** The text of a file as [json.loads] sees it: the empty string,
    a JSON document (object members in the order and with the repetitions of
    the text), or any other text, which [json.loads] rejects.  Two texts
    that differ only in insignificant white space are the same [Doc]. *)
Inductive text : Type :=
| Blank
| Doc (j : json)
| Malformed.

(** [json.loads(text, object_pairs_hook=OrderedDict)]: every object of the
    document, nested ones included, is built by [OrderedDict(pairs)]. *)
Fixpoint object_pairs_hook (j : json) : json :=
  match j with
  | JArr items => JArr (map object_pairs_hook items)
  | JObj members =>
      JObj (od_of_pairs (map (fun kv => (fst kv, object_pairs_hook (snd kv))) members))
  | _ => j
  end.

Definition json_loads (t : text) : result json :=
  match t with
  | Doc j => ret (object_pairs_hook j)
  | Blank | Malformed => raise ValueError
  end.

(** [json.dumps(rh, f)]: the plugin runs on Sublime Text's Python 3.3, where
    the second positional parameter is [skipkeys]; the file object is truthy
    and every key is a string, so nothing is skipped. *)
Definition json_dumps (j : json) : text := Doc j.

(** ** [queue.Queue]: [put], [get] and [qsize] on the underlying deque.
    The class defines neither [__iter__] nor [__getitem__], so a [for] loop
    over a queue raises [TypeError] before its first iteration. *)
Section Queue.
Variable A : Type.

Record Queue : Type := mkQueue { queue : list A }.

Definition put (x : A) (q : Queue) : Queue := mkQueue (queue q ++ [x]).
Definition qsize (q : Queue) : nat := List.length (queue q).
Definition get (q : Queue) : option (A * Queue) :=
  match queue q with
  | [] => None
  | x :: rest => Some (x, mkQueue rest)
  end.

(** [iter(q)] *)
Definition Queue_iter (q : Queue) : result (list A) := raise TypeError.
(** [iter(l)] for a list *)
Definition list_iter (l : list A) : result (list A) := ret l.
End Queue.

(** A string without any of the line boundaries of [splitlines]. *)
Fixpoint no_linebreak (s : string) : bool :=
  match s with
  | EmptyString => true
  | String c s' => negb (is_linebreak c) && no_linebreak s'
  end.

(** [d.update(d2)] on dictionaries with string keys: the bindings of [d2]
    are assigned one after the other. *)
Definition dict_update {V : Type} (d d2 : list (string * V)) : list (string * V) :=
  fold_left (fun acc kv => od_setitem (fst kv) (snd kv) acc) d2 d.

End Python.

(* ================================================================== *)
(** * core/__init__.py                                                  *)
(* ================================================================== *)
Module Core.

Import Python.
Open Scope string_scope.

(** ** [parse_env_block] *)

Definition delimeter : string := "###env".

(** The [for line in text.splitlines()] loop with its two locals; the
    [break] is the branch that stops recursing. *)
Fixpoint parse_env_loop (lines : list string) (in_block : bool)
    (env_lines : list string) : bool * list string :=
  match lines with
  | [] => (in_block, env_lines)
  | line :: rest =>
      if in_block then
        if String.eqb line delimeter then (false, env_lines)
        else parse_env_loop rest in_block (env_lines ++ [line])%list
      else
        if String.eqb line delimeter then parse_env_loop rest true env_lines
        else parse_env_loop rest in_block env_lines
  end.

Definition parse_env_lines (lines : list string) : option string :=
  let '(in_block, env_lines) := parse_env_loop lines false [] in
  if (Nat.eqb (List.length env_lines) 0) || in_block then None
  else Some (join newline env_lines).

Definition parse_env_block (text : string) : option string :=
  parse_env_lines (splitlines text).

(** ** Data *)

(** The [requests] response object, as far as the code reads it:
    [res.request.method], [res.url], [res.status_code]. *)
Record HttpResponse : Type := mkHttpResponse {
  method : string;
  url : string;
  status_code : Z
}.

(** [Response(request, response, error, ordering)] *)
Record Response : Type := mkResponse {
  request : string;
  response : option HttpResponse;
  error : option string;
  ordering : Z
}.

(** Modelled from the spec: [ResponseThreadPool] of [core/responses.py],
    which is not among the sources.  A pool owns the submitted requests, the
    container of completed responses (workers append, the poller pops from
    the front), the pending requests and the [is_done] flag; a new pool has
    no responses and is not done. *)
Record Pool : Type := mkPool {
  is_done : bool;
  responses : list Response;
  requests : list string;
  pending_requests : list string
}.

Definition ResponseThreadPool (reqs : list string) : Pool :=
  mkPool false [] reqs reqs.

Definition set_is_done (p : Pool) : Pool :=
  mkPool true (responses p) (requests p) (pending_requests p).

Definition set_responses (rs : list Response) (p : Pool) : Pool :=
  mkPool (is_done p) rs (requests p) (pending_requests p).

(** Pools are objects shared between the registry, the workers and the
    poller: the store maps a reference (an index) to the pool's state. *)
Definition pool_ref : Type := nat.
Definition store : Type := list Pool.

Fixpoint store_update (f : Pool -> Pool) (r : pool_ref) (h : store) : store :=
  match h, r with
  | [], _ => []
  | p :: h', O => f p :: h'
  | p :: h', S r' => p :: store_update f r' h'
  end.

Definition store_get (r : pool_ref) (h : store) : option Pool := nth_error h r.

(** Class attributes of [RequestCommandMixin]. *)
Definition REFRESH_MS : nat := 200.
Definition ACTIVITY_SPACES : nat := 9.
Definition MAX_WORKERS : nat := 10.
Definition MAX_NUM_RESPONSE_POOLS : nat := 10.

(** What the mixin does that can be observed from outside: the hooks it
    calls (subclasses override them) and its calls into the editor. *)
Inductive event : Type :=
| SetStatus (key value : string)
| ShowActivityForPendingRequests (reqs : list string) (count : nat) (activity : string)
| HandleResponse (r : Response) (num_requests : nat)
| HandleResponses (rs : list Response)
| ErrorMessage (msg : string).

(** ** [get_activity_indicator] *)
Fixpoint spaces_str (n : nat) : string :=
  match n with
  | O => ""
  | S n' => " " ++ spaces_str n'
  end.

Definition get_activity_indicator (count spaces : nat) : string :=
  let cycle := Nat.div count spaces in
  let before :=
    if Nat.eqb (Nat.modulo cycle 2) 0 then Nat.modulo count spaces
    else spaces - Nat.modulo count spaces in
  let after := spaces - before in
  "[" ++ spaces_str before ++ "=" ++ spaces_str after ++ "]".

(** ** [_show_activity_for_pending_requests] *)
Definition _show_activity_for_pending_requests (reqs : list string) (count : nat)
    : list event :=
  let activity := get_activity_indicator count ACTIVITY_SPACES in
  [SetStatus "requester.activity" ("Requester" ++ " " ++ activity);
   ShowActivityForPendingRequests reqs count activity].

(** ** [default_handle_errors] *)
Definition truthy (s : option string) : bool :=
  match s with
  | None | Some EmptyString => false
  | Some _ => true
  end.

Definition error_text (e : option string) : string :=
  match e with
  | None => "None"
  | Some s => s
  end.

Definition default_handle_errors (rs : list Response) : list event :=
  let errors :=
    map (fun r => request r ++ newline ++ error_text (error r))
        (filter (fun r => truthy (error r)) rs) in
  match errors with
  | [] => []
  | _ => [ErrorMessage (join (newline ++ newline) errors)]
  end.

(** ** The history file and the settings [persist_requests] reads *)

(** The file at [history_path]: missing (and whether it can be created), or
    present with what reading it gives, whether it can be opened for writing,
    and its text. *)
Inductive file : Type :=
| Missing (creatable : bool)
| Present (read_error : option string) (writable : bool) (content : text).

(** [self.config]: [history_file] and [history_max_entries], when set. *)
Record Config : Type := mkConfig {
  history_file : option string;
  history_max_entries : option Z
}.

(** [self.view.settings()]: the three settings stored with an entry. *)
Record ViewSettings : Type := mkViewSettings {
  env_string : option string;
  file_name : option string;
  env_file : option string
}.

Definition json_of_option (o : option string) : json :=
  match o with
  | None => JNull
  | Some s => JStr s
  end.

(** [key = '{}: {}'.format(method, url)] *)
Definition history_key (res : HttpResponse) : string :=
  method res ++ ": " ++ url res.

(** The dict literal stored under the key. *)
Definition history_entry (ts : Z) (vs : ViewSettings) (r : Response)
    (res : HttpResponse) : json :=
  JObj [("ts", JNum ts);
        ("env_string", json_of_option (env_string vs));
        ("file", json_of_option (file_name vs));
        ("env_file", json_of_option (env_file vs));
        ("method", JStr (method res));
        ("url", JStr (url res));
        ("code", JNum (status_code res));
        ("request", JStr (request r))].

(** *** The operations of the loop on whatever [json.loads] returned.
    On an [OrderedDict] they are the dictionary's; on the other JSON values
    they are what Python does with a list, a string, a number, a boolean or
    [None]. *)

(** [key in rh] *)
Definition py_contains (key : string) (rh : json) : result bool :=
  match rh with
  | JObj d => ret (od_contains key d)
  | JArr items =>
      ret (existsb (fun j => match j with
                             | JStr s => String.eqb s key
                             | _ => false
                             end) items)
  | JStr s =>
      ret (match String.index 0 key s with Some _ => true | None => false end)
  | JNull | JBool _ | JNum _ => raise TypeError
  end.

(** [rh.pop(key, None)] *)
Definition py_pop (key : string) (rh : json) : result json :=
  match rh with
  | JObj d => ret (JObj (od_pop key d))
  | JArr _ => raise TypeError
  | _ => raise AttributeError
  end.

(** [rh[key] = v] *)
Definition py_setitem (key : string) (v : json) (rh : json) : result json :=
  match rh with
  | JObj d => ret (JObj (od_setitem key v d))
  | _ => raise TypeError
  end.

(** [len(rh)] *)
Definition py_len (rh : json) : result Z :=
  match rh with
  | JObj d => ret (Z.of_nat (List.length d))
  | JArr items => ret (Z.of_nat (List.length items))
  | JStr s => ret (Z.of_nat (String.length s))
  | JNull | JBool _ | JNum _ => raise TypeError
  end.

(** [rh.keys()] *)
Definition py_keys (rh : json) : result (list string) :=
  match rh with
  | JObj d => ret (od_keys d)
  | _ => raise AttributeError
  end.

(** [del rh[key]] inside [try ... except KeyError: pass] *)
Definition del_ignoring_KeyError (key : string) (d : OrderedDict json)
    : OrderedDict json :=
  match od_delitem key d with
  | inr d' => d'
  | inl _ => d
  end.

(** [for response in responses:  # insert new requests] *)
Fixpoint insert_new_requests (ts : Z) (vs : ViewSettings)
    (batch : list Response) (rh : json) : result json :=
  match batch with
  | [] => ret rh
  | r :: rest =>
      match response r with
      | None => insert_new_requests ts vs rest rh
      | Some res =>
          let key := history_key res in
          present <- py_contains key rh ;;
          rh1 <- (if present then py_pop key rh else ret rh) ;;
          rh2 <- py_setitem key (history_entry ts vs r res) rh1 ;;
          insert_new_requests ts vs rest rh2
      end
  end.

(** [for i in range(to_delete)]: the first keys of the iterator, stopping
    early at [StopIteration]. *)
Fixpoint oldest_keys (to_delete : nat) (iter_ : list string) (keys : list string)
    : list string :=
  match to_delete with
  | O => keys
  | S n =>
      match iter_ with
      | [] => keys
      | k :: iter' => oldest_keys n iter' (keys ++ [k])%list
      end
  end.

(** [for key in keys: del rh[key]] *)
Fixpoint delete_keys (keys : list string) (d : OrderedDict json) : OrderedDict json :=
  match keys with
  | [] => d
  | k :: keys' => delete_keys keys' (del_ignoring_KeyError k d)
  end.

(** The removal of the oldest requests. *)
Definition remove_oldest (max_entries : Z) (rh : json) : result json :=
  n <- py_len rh ;;
  let to_delete := (n - max_entries)%Z in
  if (to_delete >? 0)%Z then
    all_keys <- py_keys rh ;;
    let keys := oldest_keys (Z.to_nat to_delete) all_keys [] in
    match rh with
    | JObj d => ret (JObj (delete_keys keys d))
    | _ => raise TypeError
    end
  else ret rh.

(** [open(history_path, 'w')] followed by [f.write(json.dumps(rh, f))] *)
Definition write_history (fs : file) (rh : json) : file * result unit :=
  match fs with
  | Present re true _ => (Present re true (json_dumps rh), ret tt)
  | Present _ false _ => (fs, raise OSError)
  | Missing true => (Present None true (json_dumps rh), ret tt)
  | Missing false => (fs, raise OSError)
  end.

(** ** [persist_requests]

    The result is the file afterwards, the dialogs shown, and whether the
    call returned or raised. *)
Definition persist_requests (cfg : Config) (vs : ViewSettings) (ts : Z)
    (fs : file) (batch : list Response) : file * list event * result unit :=
  match history_file cfg with
  | None | Some EmptyString => (fs, [], ret tt)
  | Some _ =>
      (* try: open(history_path, 'r') ... *)
      let read : file * list event * result (option text) :=
        match fs with
        | Present None _ Blank => (fs, [], ret (Some (Doc (JObj []))))
        | Present None _ t => (fs, [], ret (Some t))
        | Missing true => (Present None true Blank, [], ret (Some (Doc (JObj []))))
        | Missing false => (fs, [], raise OSError)
        | Present (Some e) _ _ =>
            (fs, [ErrorMessage ("HistoryFile Error:" ++ newline ++ e)], ret None)
        end in
      let '(fs1, evs, r) := read in
      match r with
      | inl e => (fs1, evs, raise e)
      | inr None => (fs1, evs, ret tt)
      | inr (Some t) =>
          let max_entries :=
            match history_max_entries cfg with
            | Some n => n
            | None => 100%Z
            end in
          let computed :=
            rh <- json_loads t ;;
            rh1 <- insert_new_requests ts vs batch rh ;;
            remove_oldest max_entries rh1 in
          match computed with
          | inl e => (fs1, evs, raise e)
          | inr rh => let '(fs2, w) := write_history fs1 rh in (fs2, evs, w)
          end
      end
  end.

(** ** [gather_responses] *)

(** How one call ends: it raised, it returned for good, or it asked the
    scheduler ([sublime.set_timeout]) to call it again with these
    arguments. *)
Inductive outcome : Type :=
| Raised (e : exn)
| Finished
| CallAgain (count : nat) (acc : list Response).

(** [while len(pool.responses)]: pop from the front, append to the
    accumulated list, call [handle_response]. *)
Fixpoint drain (completed : list Response) (num_requests : nat)
    (acc : list Response) : list Response * list event :=
  match completed with
  | [] => (acc, [])
  | r :: rest =>
      let '(acc', evs) := drain rest num_requests (acc ++ [r]) in
      (acc', HandleResponse r num_requests :: evs)
  end.

(** One call of [gather_responses(pool, count, responses)] on the pool as it
    is when the call starts.  [acc] is [responses] ([None] is the empty
    list).  The result is the pool and the history file afterwards, the
    events in the order they happen, and the outcome. *)
Definition gather_responses (cfg : Config) (vs : ViewSettings) (ts : Z)
    (fs : file) (pool : Pool) (count : nat) (acc : list Response)
    : Pool * file * list event * outcome :=
  let ev_activity := _show_activity_for_pending_requests (pending_requests pool) count in
  let done := is_done pool in  (* cache `is_done` before removing responses *)
  let '(acc1, ev_each) := drain (responses pool) (List.length (requests pool)) acc in
  let pool' := set_responses [] pool in
  if done then
    let sorted := sort_by_key ordering acc1 in
    let ev_batch := [HandleResponses sorted] in
    let ev_errors := default_handle_errors sorted in
    let '(fs', ev_persist, r) := persist_requests cfg vs ts fs sorted in
    let before := (ev_activity ++ ev_each ++ ev_batch ++ ev_errors ++ ev_persist)%list in
    match r with
    | inl e => (pool', fs', before, Raised e)
    | inr _ => (pool', fs', (before ++ [SetStatus "requester.activity" ""])%list, Finished)
    end
  else
    (pool', fs, (ev_activity ++ ev_each)%list, CallAgain (count + 1) acc1).

(** ** [make_requests] and the registry of pools *)

Record Registry : Type := mkRegistry {
  pools : store;
  RESPONSE_POOLS : Queue pool_ref
}.

(** [while pools.qsize() > self.MAX_NUM_RESPONSE_POOLS] *)
Fixpoint evict_old_pools (max_pools : nat) (q : list pool_ref) (h : store)
    : list pool_ref * store :=
  match q with
  | [] => ([], h)
  | old_pool :: q' =>
      if Nat.ltb max_pools (List.length q)
      then evict_old_pools max_pools q' (store_update set_is_done old_pool h)
      else (q, h)
  end.

(** What [make_requests] hands to the scheduler. *)
Inductive task : Type :=
| RunPool (pool : pool_ref)
| GatherResponses (pool : pool_ref) (count : nat) (acc : list Response).

Definition make_requests_with (max_pools : nat) (reqs : list string)
    (reg : Registry) : Registry * pool_ref * list task :=
  let pool := List.length (pools reg) in  (* the new object *)
  let h := (pools reg ++ [ResponseThreadPool reqs])%list in
  let q := put pool (RESPONSE_POOLS reg) in
  let '(q', h') := evict_old_pools max_pools (queue q) h in
  (mkRegistry h' (mkQueue q'), pool, [RunPool pool; GatherResponses pool 0 []]).

Definition make_requests : list string -> Registry -> Registry * pool_ref * list task :=
  make_requests_with MAX_NUM_RESPONSE_POOLS.

(** ** The poller of one pool among the workers

    Between two calls of [gather_responses] the workers append responses in
    whatever order they finish, and the pool's flag may be set (by the pool
    when it has finished, by the registry or by a cancellation). *)
Inductive action : Type :=
| Append (r : Response)
| SetDone
| Tick.

Record Poller : Type := mkPoller {
  the_pool : Pool;
  the_file : file;
  scheduled : option (nat * list Response);
  raised : option exn;
  trace : list event
}.

Definition start (reqs : list string) (fs : file) : Poller :=
  mkPoller (ResponseThreadPool reqs) fs (Some (0, [])) None [].

Section Run.
Variable cfg : Config.
Variable vs : ViewSettings.
Variable ts : Z.

Definition step (s : Poller) (a : action) : Poller :=
  match a with
  | Append r =>
      mkPoller (set_responses (responses (the_pool s) ++ [r]) (the_pool s))
               (the_file s) (scheduled s) (raised s) (trace s)
  | SetDone =>
      mkPoller (set_is_done (the_pool s)) (the_file s) (scheduled s)
               (raised s) (trace s)
  | Tick =>
      match scheduled s with
      | None => s
      | Some (count, acc) =>
          let '(p, fs, evs, out) :=
            gather_responses cfg vs ts (the_file s) (the_pool s) count acc in
          mkPoller p fs
                   (match out with
                    | CallAgain c a => Some (c, a)
                    | _ => None
                    end)
                   (match out with
                    | Raised e => Some e
                    | _ => raised s
                    end)
                   (trace s ++ evs)
      end
  end.

Definition poll (s : Poller) (actions : list action) : Poller :=
  fold_left step actions s.
End Run.

(** The callbacks among the events. *)
Definition is_callback (e : event) : bool :=
  match e with
  | HandleResponse _ _ | HandleResponses _ => true
  | _ => false
  end.

Definition callbacks (evs : list event) : list event := filter is_callback evs.

(** The responses the workers have appended, in the order of arrival. *)
Fixpoint appended (actions : list action) : list Response :=
  match actions with
  | [] => []
  | Append r :: rest => r :: appended rest
  | _ :: rest => appended rest
  end.

(** The batches given to [handle_responses]. *)
Fixpoint batches (evs : list event) : list (list Response) :=
  match evs with
  | [] => []
  | HandleResponses rs :: evs' => rs :: batches evs'
  | _ :: evs' => batches evs'
  end.

(** Events that call no hook: the error report and the history only show
    dialogs, the rest writes to the status bar. *)
Definition only_dialogs (evs : list event) : Prop :=
  Forall (fun e => is_callback e = false) evs.

(** What the poller has accumulated and what is still in the container are
    together the responses appended so far, in the order of arrival; once it
    has stopped, the one batch it delivered is the sorted list of the
    responses appended before its last call. *)
Definition poller_inv (actions : list action) (s : Poller) : Prop :=
  match scheduled s with
  | Some (_, acc) =>
      batches (trace s) = [] /\
      (acc ++ responses (the_pool s))%list = appended actions
  | None =>
      exists pre post,
        actions = (pre ++ Tick :: post)%list /\
        batches (trace s) = [sort_by_key ordering (appended pre)]
  end.


(** The responses given to [handle_response], in the order of the calls. *)
Fixpoint handled (evs : list event) : list Response :=
  match evs with
  | [] => []
  | HandleResponse r _ :: evs' => r :: handled evs'
  | _ :: evs' => handled evs'
  end.

(** The number of [set_timeout] ticks among the actions. *)
Fixpoint count_ticks (actions : list action) : nat :=
  match actions with
  | [] => 0
  | Tick :: rest => S (count_ticks rest)
  | _ :: rest => count_ticks rest
  end.

(** Whether the flag is set among the actions. *)
Fixpoint sets_done (actions : list action) : bool :=
  match actions with
  | [] => false
  | SetDone :: _ => true
  | _ :: rest => sets_done rest
  end.

(** [make_requests] called once per batch of requests, in order. *)
Definition register_all (max_pools : nat) (submitted : list (list string))
    (reg : Registry) : Registry :=
  fold_left (fun reg reqs => fst (fst (make_requests_with max_pools reqs reg)))
            submitted reg.

(** ** The poller and the one history file

    All pools are persisted to the same file, so between two calls of
    [gather_responses] for one pool the file may be rewritten by the last
    call of another pool's poller.  An action is the pool's own, or such a
    write with the file it leaves. *)
Inductive shared_action : Type :=
| Own (a : action)
| OtherWrites (fs : file).

Definition shared_step (cfg : Config) (vs : ViewSettings) (ts : Z)
    (s : Poller) (a : shared_action) : Poller :=
  match a with
  | Own a => step cfg vs ts s a
  | OtherWrites fs =>
      mkPoller (the_pool s) fs (scheduled s) (raised s) (trace s)
  end.

Definition poll_shared (cfg : Config) (vs : ViewSettings) (ts : Z)
    (s : Poller) (actions : list shared_action) : Poller :=
  fold_left (shared_step cfg vs ts) actions s.

(** The pool's own actions. *)
Fixpoint own (actions : list shared_action) : list action :=
  match actions with
  | [] => []
  | Own a :: rest => a :: own rest
  | OtherWrites _ :: rest => own rest
  end.

(** The file after the writes of the others among the actions. *)
Fixpoint last_written (fs0 : file) (actions : list shared_action) : file :=
  match actions with
  | [] => fs0
  | Own _ :: rest => last_written fs0 rest
  | OtherWrites fs :: rest => last_written fs rest
  end.

(** ** [_run]: waiting for the thread that evaluates the environment *)

Definition REFRESH_MULTIPLIER : nat := 4.

(** How one call of [_run] ends: the timeout dialog, a new call scheduled
    with [sublime.set_timeout] after a delay in milliseconds, or the branch
    that fetches the requests, clears the status and calls [make_requests]
    ([get_requests] and [prepare_request] belong to the subclasses and to
    [core/parsers.py]; the events of that branch are those of the mixin when
    the two return). *)
Inductive run_outcome : Type :=
| EnvTimedOut
| RunAgain (count : nat) (delay_ms : nat)
| EnvReady.

(** One call of [_run(thread, count)], with [thread.is_alive()] as it is at
    the call and [timeout_env] a whole number of seconds, when set.
    [count * self.REFRESH_MS/REFRESH_MULTIPLIER] is a true division of a
    multiple of four, so the integer quotient is its exact value. *)
Definition _run (timeout_env : option Z) (is_alive : bool) (count : nat)
    : list event * run_outcome :=
  let activity :=
    get_activity_indicator (Nat.div count REFRESH_MULTIPLIER) ACTIVITY_SPACES in
  let ev_status :=
    if Nat.ltb 0 count
    then [SetStatus "requester.activity" ("RequesterEnv" ++ " " ++ activity)]
    else [] in
  if is_alive then
    let timed_out :=
      match timeout_env with
      | None => false
      | Some timeout =>
          (Z.of_nat count * Z.of_nat REFRESH_MS / Z.of_nat REFRESH_MULTIPLIER
           >? timeout * 1000)%Z
      end in
    if timed_out then
      ((ev_status ++
        [ErrorMessage "Timeout Error: environment took too long to parse";
         SetStatus "requester.activity" ""])%list,
       EnvTimedOut)
    else (ev_status, RunAgain (count + 1) (Nat.div REFRESH_MS REFRESH_MULTIPLIER))
  else
    (* requests = self.get_requests() ...; then the status is cleared *)
    ((ev_status ++ [SetStatus "requester.activity" ""])%list, EnvReady).

(** The calls of [_run] that follow one another through [set_timeout],
    beginning at [count]; [alive n] tells whether the thread is alive at the
    call with count [n].  The result is the count and the outcome of the last
    call, or [None] when the calls have not ended after [fuel] of them. *)
Fixpoint wait_for_env (fuel : nat) (timeout_env : option Z) (alive : nat -> bool)
    (count : nat) : option (nat * run_outcome) :=
  match fuel with
  | O => None
  | S fuel' =>
      match snd (_run timeout_env (alive count) count) with
      | RunAgain count' _ => wait_for_env fuel' timeout_env alive count'
      | out => Some (count, out)
      end
  end.

(** ** [get_env]

    The code evaluated by [exec], the reading of the requester file and the
    loading of the env file are outside the program: each is a function that
    gives its result or the text of the exception it raised. *)

(** What [get_env] does besides computing: events of the editor and lines
    printed to the console. *)
Inductive env_event : Type :=
| EnvEvent (e : event)
| Print (line : string).

(** [add_error_status_bar]: the errors so far and the error to add. *)
Definition add_error_status_bar (status_errors : list string) (err : string)
    : list string * list env_event :=
  let errors := (status_errors ++ [err])%list in
  (errors,
   [Print ("Requester Error" ++ ": " ++ err);
    EnvEvent (SetStatus "requester.errors"
                ("RequesterErrors" ++ ": " ++ join ", " errors))]).

(** [reset_status] *)
Definition reset_status : list string * list env_event :=
  ([], [EnvEvent (SetStatus "requester.errors" "");
        EnvEvent (SetStatus "requester.download" "")]).

Section GetEnv.
Variable V : Type.
(** [exec(s, env.__dict__)] followed by [dict(env.__dict__)] *)
Variable exec_env : string -> string + list (string * V).
(** [open(file, 'r')] and [f.read()] *)
Variable read_file : string -> string + string.
(** [vars(imp.load_source('requester.env', env_file))] *)
Variable load_source : string -> string + list (string * V).

(** [get_env_dict_from_string]; the removal of [requester.env] from
    [sys.modules] that comes first only concerns the interpreter's cache of
    modules. *)
Definition get_env_dict_from_string (s : option string)
    : list env_event * list (string * V) :=
  match s with
  | None | Some EmptyString => ([], [])
  | Some s =>
      match exec_env s with
      | inl e => ([EnvEvent (ErrorMessage ("EnvBlock Error:" ++ newline ++ e))], [])
      | inr d => ([], d)
      end
  end.

(** [get_env]: the errors of the status bar afterwards, the events, and the
    environment ([env_dict or None]). *)
Definition get_env (vs : ViewSettings) (status_errors : list string)
    : list string * list env_event * option (list (string * V)) :=
  let '(ev1, env_dict) := get_env_dict_from_string (env_string vs) in
  let '(errs2, ev2, env_dict2) :=
    match file_name vs with
    | None | Some EmptyString => (status_errors, [], env_dict)
    | Some file =>
        match read_file file with
        | inl e =>
            let '(errs, evs) := add_error_status_bar status_errors e in
            (errs, evs, env_dict)
        | inr text =>
            let env_block := parse_env_block text in
            let '(evs, d) := get_env_dict_from_string env_block in
            (status_errors, evs, dict_update env_dict d)
        end
    end in
  let '(errs3, ev3, env_dict3) :=
    match env_file vs with
    | None | Some EmptyString => (errs2, [], env_dict2)
    | Some path =>
        match load_source path with
        | inl e =>
            let '(errs, evs) := add_error_status_bar errs2 e in
            (errs, evs, env_dict2)
        | inr env_dict_ => (errs2, [], dict_update env_dict2 env_dict_)
        end
    end in
  (errs3, (ev1 ++ ev2 ++ ev3)%list,
   match env_dict3 with
   | [] => None
   | _ => Some env_dict3
   end).

(** What each source contributes: nothing when it is not set or fails. *)
Definition from_env_string (vs : ViewSettings) : list (string * V) :=
  snd (get_env_dict_from_string (env_string vs)).

Definition from_file (vs : ViewSettings) : list (string * V) :=
  match file_name vs with
  | None | Some EmptyString => []
  | Some file =>
      match read_file file with
      | inl _ => []
      | inr text => snd (get_env_dict_from_string (parse_env_block text))
      end
  end.

Definition from_env_file (vs : ViewSettings) : list (string * V) :=
  match env_file vs with
  | None | Some EmptyString => []
  | Some path =>
      match load_source path with
      | inl _ => []
      | inr d => d
      end
  end.
End GetEnv.

End Core.


(* ================================================================== *)
(** * request_commands.py                                               *)
(* ================================================================== *)
Module RequestCommands.

Import Python Core.
Open Scope string_scope.

(** ** [base_url] *)

(** [url.split('?')[0]] *)
Fixpoint before_question_mark (s : string) : string :=
  match s with
  | EmptyString => EmptyString
  | String c s' =>
      if Ascii.eqb c "?"%char then EmptyString
      else String c (before_question_mark s')
  end.

(** [url[:-1]] when [url[-1] == '/'] *)
Fixpoint strip_trailing_slash (s : string) : string :=
  match s with
  | EmptyString => EmptyString
  | String c EmptyString => if Ascii.eqb c "/"%char then EmptyString else s
  | String c s' => String c (strip_trailing_slash s')
  end.

Definition base_url (u : string) : string :=
  strip_trailing_slash (before_question_mark u).

(** ** [RequesterCancelRequestsCommand.run]

    [for pool in pools: pool.is_done = True] with [pools] the queue of the
    mixin.  The loop body runs on what [iter(pools)] yields. *)
Definition run (reg : Registry) : Registry * result unit :=
  match Queue_iter (RESPONSE_POOLS reg) with
  | inl e => (reg, raise e)
  | inr items =>
      (mkRegistry (fold_left (fun h pool => store_update set_is_done pool h)
                             items (pools reg))
                  (RESPONSE_POOLS reg),
       ret tt)
  end.


(** ** Response views *)

(** A view as the two methods below see it: its identity and the settings
    [requester.response_view] and [requester.request], the latter a list
    [[method, url]] when set. *)
Record View : Type := mkView {
  view_id : nat;
  response_view : bool;
  view_request : option (string * string)
}.

Definition truthy_str (s : string) : bool :=
  match s with
  | EmptyString => false
  | _ => true
  end.

(** The test of the loop body on one sheet; [sheet.view()] may be [None]. *)
Definition matching_view (method_ url_ : string) (sheet : option View) : bool :=
  match sheet with
  | None => false
  | Some view =>
      response_view view &&
      match view_request view with
      | None => false
      | Some (m, u) =>
          truthy_str m && truthy_str u &&
          String.eqb m method_ && String.eqb (base_url url_) (base_url u)
      end
  end.

Fixpoint views_of (sheets : list (option View)) : list View :=
  match sheets with
  | [] => []
  | Some v :: rest => v :: views_of rest
  | None :: rest => views_of rest
  end.

(** [response_views_with_matching_request]: [self_view] is [self.view] and
    [sheets] the views of [self.view.window().sheets()]. *)
Definition response_views_with_matching_request (self_view : View)
    (sheets : list (option View)) (method_ url_ : string) : list View :=
  if response_view self_view then [self_view]
  else views_of (filter (matching_view method_ url_) sheets).

(** [set_request_setting_on_view]: the view afterwards. *)
Definition set_request_setting_on_view (view : View) (res : HttpResponse) : View :=
  mkView (view_id view) (response_view view)
         (Some (method res, before_question_mark (url res))).

(** [s.ljust(width)] *)
Definition ljust (s : string) (width : nat) : string :=
  s ++ spaces_str (width - String.length s).

(** The body of the inner loop of [show_activity_for_pending_requests] for
    one view with the setting [requester.name]: the name given to the tab and
    the value of [activity] afterwards. *)
Definition pending_view_name (name : option string) (count : nat)
    (activity : string) : string * string :=
  match name with
  | None | Some EmptyString => (activity, activity)
  | Some name =>
      let spaces := Nat.min ACTIVITY_SPACES (String.length name) in
      let activity := get_activity_indicator count spaces in
      let extra_spaces := 4 in
      (ljust activity (String.length name + extra_spaces), activity)
  end.

(** No [?] in the string. *)
Fixpoint no_question_mark (s : string) : bool :=
  match s with
  | EmptyString => true
  | String c s' => negb (Ascii.eqb c "?"%char) && no_question_mark s'
  end.

(** [url and url[-1] == '/'] *)
Fixpoint ends_with_slash (s : string) : bool :=
  match s with
  | EmptyString => false
  | String c EmptyString => Ascii.eqb c "/"%char
  | String _ s' => ends_with_slash s'
  end.

End RequestCommands.

(* ================================================================== *)
(** * The history as a mapping                                          *)
(* ================================================================== *)
Module HistoryStore.

Import Python Core.

(** What one pass of the insertion loop does to an [OrderedDict]: the key
    leaves its place, if it has one, and goes last with the new value. *)
Definition od_touch (key : string) (v : json) (d : OrderedDict json)
    : OrderedDict json :=
  (od_remove key d ++ [(key, v)])%list.

(** The insertion loop on an [OrderedDict]. *)
Fixpoint inserted (ts : Z) (vs : ViewSettings) (batch : list Response)
    (d : OrderedDict json) : OrderedDict json :=
  match batch with
  | [] => d
  | r :: rest =>
      match response r with
      | None => inserted ts vs rest d
      | Some res =>
          inserted ts vs rest
            (od_touch (history_key res) (history_entry ts vs r res) d)
      end
  end.

(** [to_delete] and the mapping without its [to_delete] oldest entries. *)
Definition overflow (max_entries : Z) (d : OrderedDict json) : Z :=
  (Z.of_nat (List.length d) - max_entries)%Z.

Definition trimmed (max_entries : Z) (d : OrderedDict json) : OrderedDict json :=
  skipn (Z.to_nat (overflow max_entries d)) d.

(** [self.config.get('history_max_entries', 100)] *)
Definition max_entries_of (cfg : Config) : Z :=
  match history_max_entries cfg with
  | Some n => n
  | None => 100%Z
  end.

(** The mapping [json.loads] builds from the members of a JSON object. *)
Definition loaded (members : list (string * json)) : OrderedDict json :=
  od_of_pairs (map (fun kv => (fst kv, object_pairs_hook (snd kv))) members).


Definition has_result (r : Response) : bool :=
  match response r with
  | Some _ => true
  | None => false
  end.

(** The entries a batch asks to store, in the order of the batch. *)
Fixpoint entries (ts : Z) (vs : ViewSettings) (batch : list Response)
    : list (string * json) :=
  match batch with
  | [] => []
  | r :: rest =>
      match response r with
      | None => entries ts vs rest
      | Some res =>
          (history_key res, history_entry ts vs r res) :: entries ts vs rest
      end
  end.

(** The entry of the last response of the batch stored under [key]. *)
Fixpoint latest (ts : Z) (vs : ViewSettings) (key : string)
    (batch : list Response) : option json :=
  match batch with
  | [] => None
  | r :: rest =>
      match latest ts vs key rest with
      | Some e => Some e
      | None =>
          match response r with
          | Some res =>
              if String.eqb key (history_key res)
              then Some (history_entry ts vs r res) else None
          | None => None
          end
      end
  end.

End HistoryStore.

(* ================================================================== *)
(** * Concrete inputs used below                                        *)
(* ================================================================== *)
Module Samples.

Import Python Core.
Open Scope string_scope.

Definition sample_text : string :=
  "get('a')" ++ newline ++ "###env" ++ newline ++ "x = 1" ++ newline ++
  "y = 2" ++ String CR newline ++ "###env" ++ newline ++ "###env" ++ newline ++
  "z = 3".

Definition cfg : Config := mkConfig (Some "history.json") (Some 2%Z).
Definition views : ViewSettings := mkViewSettings None (Some "api.py") None.
Definition now : Z := 1500000000%Z.

Definition ok (n : Z) (u : string) : Response :=
  mkResponse ("get('" ++ u ++ "')") (Some (mkHttpResponse "GET" u 200%Z)) None n.

Definition failed (n : Z) (u : string) : Response :=
  mkResponse ("get('" ++ u ++ "')") None (Some "ConnectionError") n.

Definition three_pools : Registry :=
  mkRegistry [ResponseThreadPool ["get('/a')"];
              set_responses [ok 0%Z "/b"] (ResponseThreadPool ["get('/b')"]);
              ResponseThreadPool ["get('/c')"]]
             (mkQueue [1; 2]%nat).


(** The pools after a fourth registration with room for two: the pool of
    [/b], the oldest in the queue, is done. *)
Definition three_pools_and_one : store :=
  [mkPool false [] ["get('/a')"] ["get('/a')"];
   mkPool true [ok 0%Z "/b"] ["get('/b')"] ["get('/b')"];
   mkPool false [] ["get('/c')"] ["get('/c')"];
   mkPool false [] ["get('/d')"] ["get('/d')"]].


(** A second request to [/a], answered with another status. *)
Definition again : Response :=
  mkResponse "get('/a', params={})" (Some (mkHttpResponse "GET" "/a" 404%Z)) None 2%Z.


Definition negative_cfg : Config := mkConfig (Some "history.json") (Some (-1)%Z).

(** Three entries as an earlier call wrote them. *)
Definition three_entries : list (string * json) :=
  [("GET: /k1", history_entry 1 views (ok 0 "/k1") (mkHttpResponse "GET" "/k1" 200));
   ("GET: /k2", history_entry 2 views (ok 0 "/k2") (mkHttpResponse "GET" "/k2" 200));
   ("GET: /k3", history_entry 3 views (ok 0 "/k3") (mkHttpResponse "GET" "/k3" 200))]%Z.

(** Three sources of an environment: what [exec] makes of two env strings,
    a requester file with an env block, and an env file. *)
Definition sample_exec (s : string) : string + list (string * Z) :=
  if String.eqb s "a = 1; b = 1; c = 1" then inr [("a", 1); ("b", 1); ("c", 1)]%Z
  else if String.eqb s "b = 2; c = 2" then inr [("b", 2); ("c", 2)]%Z
  else inl "SyntaxError: invalid syntax".

Definition sample_read (path : string) : string + string :=
  if String.eqb path "api.py"
  then inr ("###env" ++ newline ++ "b = 2; c = 2" ++ newline ++ "###env" ++
            newline ++ "get('/a')")
  else inl "[Errno 2] No such file or directory".

Definition sample_load (path : string) : string + list (string * Z) :=
  if String.eqb path "env.py" then inr [("c", 3)]%Z
  else inl "[Errno 2] No such file or directory".

Definition sample_settings : ViewSettings :=
  mkViewSettings (Some "a = 1; b = 1; c = 1") (Some "api.py") (Some "env.py").

End Samples.

(* ================================================================== *)
(** * Invariants and derived notions used in the proofs                 *)
(* ================================================================== *)
Module Invariants.

Import Python Core HistoryStore.
Open Scope string_scope.
Open Scope list_scope.

(** The text of the indicator with the marker after [before] spaces. *)
Definition indicator_at (before spaces : nat) : string :=
  "[" ++ spaces_str before ++ "=" ++ spaces_str (spaces - before) ++ "]".

(** The position of the marker. *)
Definition marker_position (count spaces : nat) : nat :=
  if Nat.eqb (Nat.modulo (Nat.div count spaces) 2) 0
  then Nat.modulo count spaces
  else spaces - Nat.modulo count spaces.

(** After [k] registrations into an empty registry: there are [k] pools, the
    queue holds the references of the last [min k max_pools] of them in the
    order of registration, pool [i] holds the requests it was created with
    and no responses, and it is marked done exactly when it has left the
    queue. *)
Definition registry_inv (max_pools : nat) (submitted : list (list string))
    (reg : Registry) : Prop :=
  let k := List.length submitted in
  List.length (pools reg) = k /\
  queue (RESPONSE_POOLS reg) = seq (k - Nat.min k max_pools) (Nat.min k max_pools) /\
  forall i, i < k ->
    store_get i (pools reg) =
    Some (mkPool (Nat.ltb i (k - max_pools)) [] (nth i submitted []) (nth i submitted [])).

(** The state of the poller after some actions, in full: while it is
    scheduled it has handled what it has accumulated, the rest of what was
    appended waits in the container, the file is as at the start and the
    count is the number of calls so far; once it has stopped, it has handled
    what was appended before its last call, what came later waits in the
    container, and the file is what [persist_requests] made of it with the
    sorted batch. *)
Definition poller_state cfg vs ts (reqs : list string) (fs0 : file)
    (actions : list action) (s : Poller) : Prop :=
  requests (the_pool s) = reqs /\
  match scheduled s with
  | Some (count, acc) =>
      handled (trace s) = acc /\
      acc ++ responses (the_pool s) = appended actions /\
      the_file s = fs0 /\
      count = count_ticks actions /\
      is_done (the_pool s) = sets_done actions
  | None =>
      exists pre post,
        actions = pre ++ Tick :: post /\
        sets_done pre = true /\
        handled (trace s) = appended pre /\
        responses (the_pool s) = appended post /\
        the_file s =
          fst (fst (persist_requests cfg vs ts fs0
                      (sort_by_key ordering (appended pre))))
  end.

(** The values of a mapping are what the hook leaves alone. *)
Definition hooked (d : OrderedDict json) : Prop :=
  forall kv, In kv d -> object_pairs_hook (snd kv) = snd kv.

(** The file of a poller among the writes of the others: while the poller is
    scheduled the file is what the others made of it; once the poller has
    stopped, its last call has persisted the sorted batch to the file as it
    was at that call, and the others have written since. *)
Definition shared_file_inv cfg vs ts (fs0 : file)
    (actions : list shared_action) (s : Poller) : Prop :=
  match scheduled s with
  | Some (_, acc) =>
      acc ++ responses (the_pool s) = appended (own actions) /\
      the_file s = last_written fs0 actions
  | None =>
      exists pre post,
        actions = pre ++ Own Tick :: post /\
        the_file s =
          last_written
            (fst (fst (persist_requests cfg vs ts (last_written fs0 pre)
                         (sort_by_key ordering (appended (own pre))))))
            post
  end.

End Invariants.

(* ================================================================== *)
(** * Facts about the builtins                                          *)
(* ================================================================== *)
Module PythonFacts.

Import Python.
Open Scope list_scope.

(** ** Sorting by a key *)
Section SortFacts.
Variable A : Type.
Variable key : A -> Z.

Lemma insert_by_key_perm (x : A) (l : list A) :
  Permutation (x :: l) (insert_by_key key x l).
Proof.
  induction l as [|y l IH]; simpl.
  - apply Permutation_refl.
  - destruct (key y <? key x)%Z.
    + eapply perm_trans; [apply perm_swap|].
      apply perm_skip, IH.
    + apply Permutation_refl.
Qed.

Lemma sort_by_key_perm (l : list A) : Permutation l (sort_by_key key l).
Proof.
  induction l as [|x l IH]; simpl.
  - constructor.
  - eapply perm_trans; [apply perm_skip, IH|].
    apply insert_by_key_perm.
Qed.

Lemma insert_by_key_sorted (x : A) (l : list A) :
  StronglySorted (key_le key) l -> StronglySorted (key_le key) (insert_by_key key x l).
Proof.
  induction 1 as [|y l Hs IH Hall]; simpl.
  - constructor; constructor.
  - destruct (Z.ltb_spec (key y) (key x)) as [Hlt|Hge].
    + constructor; [exact IH|].
      apply (Permutation_Forall (insert_by_key_perm x l)).
      constructor; [unfold key_le; lia | exact Hall].
    + constructor.
      * constructor; assumption.
      * constructor; [exact Hge|].
        apply (Forall_impl (P := key_le key y)); [|exact Hall].
        unfold key_le; intros; lia.
Qed.

Lemma sort_by_key_sorted (l : list A) : StronglySorted (key_le key) (sort_by_key key l).
Proof.
  induction l as [|x l IH]; simpl.
  - constructor.
  - apply insert_by_key_sorted, IH.
Qed.

(** The sort is stable: the elements of one key keep their order. *)
Lemma insert_by_key_filter (k : Z) (x : A) (l : list A) :
  StronglySorted (key_le key) l ->
  filter (fun a => Z.eqb (key a) k) (insert_by_key key x l) =
  filter (fun a => Z.eqb (key a) k) (x :: l).
Proof.
  induction 1 as [|y l Hs IH Hall]; [reflexivity|].
  cbn [insert_by_key].
  destruct (Z.ltb_spec (key y) (key x)) as [Hlt|Hge]; [|reflexivity].
  cbn [filter] in *. rewrite IH.
  destruct (Z.eqb_spec (key x) k), (Z.eqb_spec (key y) k); try reflexivity.
  lia.
Qed.

Lemma sort_by_key_stable (k : Z) (l : list A) :
  filter (fun a => Z.eqb (key a) k) (sort_by_key key l) =
  filter (fun a => Z.eqb (key a) k) l.
Proof.
  induction l as [|x l IH]; [reflexivity|].
  cbn [sort_by_key].
  rewrite insert_by_key_filter by apply sort_by_key_sorted.
  cbn [filter]. now rewrite IH.
Qed.
End SortFacts.

(** ** Ordered dictionaries *)
Section OrderedDictFacts.
Variable V : Type.
Implicit Types (d : OrderedDict V) (k key : string) (v : V).

Lemma od_contains_In key d : od_contains key d = true <-> In key (od_keys d).
Proof.
  unfold od_contains. rewrite existsb_exists. split.
  - intros (k & Hin & Heq). apply String.eqb_eq in Heq. now subst.
  - intros Hin. exists key. split; [exact Hin | apply String.eqb_refl].
Qed.

Lemma od_contains_false key d : od_contains key d = false <-> ~ In key (od_keys d).
Proof.
  rewrite <- od_contains_In. destruct (od_contains key d); split; congruence.
Qed.

Lemma od_remove_absent key d : ~ In key (od_keys d) -> od_remove key d = d.
Proof.
  induction d as [|[k v] d IH]; intros Hn; [reflexivity|].
  cbn [od_remove]. destruct (String.eqb_spec key k) as [->|Hne].
  - exfalso. apply Hn. now left.
  - rewrite IH; [reflexivity|]. intros H. apply Hn. now right.
Qed.

Lemma od_remove_keys_incl key d k :
  In k (od_keys (od_remove key d)) -> In k (od_keys d).
Proof.
  induction d as [|[k0 v] d IH]; [auto|].
  cbn [od_remove]. destruct (String.eqb_spec key k0) as [->|Hne]; cbn.
  - auto.
  - intros [H|H]; auto.
Qed.

Lemma od_remove_NoDup key d : NoDup (od_keys d) -> NoDup (od_keys (od_remove key d)).
Proof.
  induction d as [|[k v] d IH]; intros Hnd; [constructor|].
  cbn in Hnd. inversion Hnd as [|? ? Hk Hd]; subst.
  cbn [od_remove]. destruct (String.eqb_spec key k) as [->|Hne]; [exact Hd|].
  cbn. constructor; [|apply IH, Hd].
  intros H. apply Hk. eapply od_remove_keys_incl, H.
Qed.

Lemma od_remove_gone key d : NoDup (od_keys d) -> ~ In key (od_keys (od_remove key d)).
Proof.
  induction d as [|[k v] d IH]; intros Hnd; [auto|].
  cbn in Hnd. inversion Hnd as [|? ? Hk Hd]; subst.
  cbn [od_remove]. destruct (String.eqb_spec key k) as [->|Hne]; [exact Hk|].
  cbn. intros [H|H]; [congruence | now apply IH].
Qed.

Lemma od_remove_other key d k :
  k <> key -> In k (od_keys d) -> In k (od_keys (od_remove key d)).
Proof.
  intros Hne. induction d as [|[k0 v] d IH]; [auto|].
  cbn [od_remove]. destruct (String.eqb_spec key k0) as [->|Hne0]; cbn.
  - intros [H|H]; [congruence | exact H].
  - intros [H|H]; auto.
Qed.

Lemma od_remove_length key d :
  In key (od_keys d) -> S (List.length (od_remove key d)) = List.length d.
Proof.
  induction d as [|[k v] d IH]; [intros []|].
  cbn [od_remove]. destruct (String.eqb_spec key k) as [->|Hne]; [reflexivity|].
  cbn. intros [H|H]; [congruence|]. now rewrite IH.
Qed.

Lemma od_setitem_absent key v d :
  ~ In key (od_keys d) -> od_setitem key v d = d ++ [(key, v)].
Proof.
  induction d as [|[k w] d IH]; intros Hn; [reflexivity|].
  cbn [od_setitem]. destruct (String.eqb_spec key k) as [->|Hne].
  - exfalso. apply Hn. now left.
  - cbn. rewrite IH; [reflexivity|]. intros H. apply Hn. now right.
Qed.

Lemma od_setitem_present_keys key v d :
  In key (od_keys d) -> od_keys (od_setitem key v d) = od_keys d.
Proof.
  induction d as [|[k w] d IH]; [intros []|].
  cbn [od_setitem]. destruct (String.eqb_spec key k) as [->|Hne]; [reflexivity|].
  cbn. intros [H|H]; [congruence|]. f_equal. now apply IH.
Qed.

Lemma od_setitem_NoDup key v d :
  NoDup (od_keys d) -> NoDup (od_keys (od_setitem key v d)).
Proof.
  intros Hnd. destruct (in_dec string_dec key (od_keys d)) as [Hin|Hn].
  - now rewrite od_setitem_present_keys.
  - rewrite od_setitem_absent by exact Hn.
    unfold od_keys. rewrite map_app. cbn.
    apply NoDup_app.
    + exact Hnd.
    + repeat constructor. auto.
    + intros k Hk [<-|[]]. now apply Hn.
Qed.

Lemma od_of_pairs_NoDup (pairs : list (string * V)) :
  NoDup (od_keys (od_of_pairs pairs)).
Proof.
  unfold od_of_pairs.
  assert (H : forall d, NoDup (od_keys d) ->
            NoDup (od_keys (fold_left
              (fun d kv => od_setitem (fst kv) (snd kv) d) pairs d))).
  { induction pairs as [|[k v] pairs IH]; intros d Hd; [exact Hd|].
    cbn [fold_left]. apply IH, od_setitem_NoDup, Hd. }
  apply H. constructor.
Qed.

(** Pairs with distinct keys are kept as they are. *)
Lemma od_of_pairs_distinct (pairs : list (string * V)) :
  NoDup (map fst pairs) -> od_of_pairs pairs = pairs.
Proof.
  unfold od_of_pairs.
  assert (H : forall d, NoDup (od_keys d ++ map fst pairs) ->
            fold_left (fun d kv => od_setitem (fst kv) (snd kv) d) pairs d
            = d ++ pairs).
  { induction pairs as [|[k v] pairs IH]; intros d Hd.
    - now rewrite app_nil_r.
    - cbn [fold_left fst snd].
      rewrite od_setitem_absent.
      + rewrite IH.
        * now rewrite <- app_assoc.
        * unfold od_keys in *. rewrite map_app. cbn.
          rewrite <- app_assoc. exact Hd.
      + intros Hin. apply NoDup_remove_2 in Hd. apply Hd.
        apply in_or_app. now left. }
  intros Hnd. apply (H []). exact Hnd.
Qed.

Lemma od_get_last key v d :
  ~ In key (od_keys d) -> od_get key (d ++ [(key, v)]) = Some v.
Proof.
  induction d as [|[k w] d IH]; intros Hn; cbn.
  - now rewrite String.eqb_refl.
  - destruct (String.eqb_spec key k) as [->|Hne].
    + exfalso. apply Hn. now left.
    + apply IH. intros H. apply Hn. now right.
Qed.
End OrderedDictFacts.

End PythonFacts.

(* ================================================================== *)
(** * Properties of core/__init__.py                                    *)
(* ================================================================== *)
Module CoreSpec.

Import Python Core PythonFacts Samples.
Open Scope string_scope.
Open Scope list_scope.

(** ** [parse_env_block] *)

Lemma parse_env_loop_outside (pre rest : list string) (acc : list string) :
  ~ In delimeter pre ->
  parse_env_loop (pre ++ rest) false acc = parse_env_loop rest false acc.
Proof.
  induction pre as [|l pre IH]; intros Hn; [reflexivity|].
  cbn [app parse_env_loop].
  destruct (String.eqb_spec l delimeter) as [->|_].
  - exfalso. apply Hn. now left.
  - apply IH. intros H. apply Hn. now right.
Qed.

Lemma parse_env_loop_inside (body rest : list string) (acc : list string) :
  ~ In delimeter body ->
  parse_env_loop (body ++ rest) true acc =
  parse_env_loop rest true (acc ++ body).
Proof.
  revert acc.
  induction body as [|l body IH]; intros acc Hn.
  - now rewrite app_nil_r.
  - cbn [app parse_env_loop].
    destruct (String.eqb_spec l delimeter) as [->|_].
    + exfalso. apply Hn. now left.
    + rewrite IH by (intros H; apply Hn; now right).
      now rewrite <- app_assoc.
Qed.

(** C10. [parse_env_block] returns the lines strictly between the first two
    lines equal to ["###env"], joined by newlines; it returns [None] when
    that block has no lines, when the opening marker is not closed by a
    second marker line, and when there is no marker at all. *)
Theorem parse_env_block_first_block (text : string) :
  (forall pre body post,
     splitlines text = (pre ++ delimeter :: body ++ delimeter :: post)%list ->
     ~ In delimeter pre -> ~ In delimeter body ->
     parse_env_block text =
       match body with
       | [] => None
       | _ => Some (join newline body)
       end) /\
  (forall pre body,
     splitlines text = (pre ++ delimeter :: body)%list ->
     ~ In delimeter pre -> ~ In delimeter body ->
     parse_env_block text = None) /\
  (~ In delimeter (splitlines text) -> parse_env_block text = None).
Proof.
  unfold parse_env_block, parse_env_lines.
  split; [|split].
  - intros pre body post -> Hpre Hbody.
    rewrite parse_env_loop_outside by assumption.
    cbn [parse_env_loop]. rewrite String.eqb_refl.
    rewrite parse_env_loop_inside by assumption.
    cbn [parse_env_loop]. rewrite String.eqb_refl.
    destruct body; reflexivity.
  - intros pre body -> Hpre Hbody.
    rewrite parse_env_loop_outside by assumption.
    cbn [parse_env_loop]. rewrite String.eqb_refl.
    rewrite <- (app_nil_r body).
    rewrite parse_env_loop_inside by assumption.
    cbn [parse_env_loop]. now rewrite orb_true_r.
  - intros Hn.
    rewrite <- (app_nil_r (splitlines text)).
    rewrite parse_env_loop_outside by assumption.
    reflexivity.
Qed.

Lemma parse_env_block_first_block_witness :
  parse_env_block sample_text = Some ("x = 1" ++ newline ++ "y = 2")%string /\
  parse_env_block ("###env" ++ newline ++ "x = 1")%string = None /\
  parse_env_block "x = 1" = None.
Proof.
  split; [|split].
  - apply (proj1 (parse_env_block_first_block sample_text)
                 ["get('a')"] ["x = 1"; "y = 2"] ["###env"; "z = 3"]).
    + reflexivity.
    + simpl. intros [H|[]]. discriminate H.
    + simpl. intros [H|[H|[]]]; discriminate H.
  - apply (proj1 (proj2 (parse_env_block_first_block _)) [] ["x = 1"]).
    + reflexivity.
    + simpl. tauto.
    + simpl. intros [H|[]]. discriminate H.
  - apply (proj2 (proj2 (parse_env_block_first_block _))).
    simpl. intros [H|[]]. discriminate H.
Defined.

(** ** [gather_responses] *)

Lemma drain_spec (completed : list Response) (n : nat) (acc : list Response) :
  drain completed n acc =
  ((acc ++ completed)%list, map (fun r => HandleResponse r n) completed).
Proof.
  revert acc.
  induction completed as [|r rest IH]; intros acc; cbn [drain map].
  - now rewrite app_nil_r.
  - rewrite IH, <- app_assoc. reflexivity.
Qed.

Lemma batches_app (e1 e2 : list event) :
  batches (e1 ++ e2) = (batches e1 ++ batches e2)%list.
Proof.
  induction e1 as [|e e1 IH]; [reflexivity|].
  destruct e; cbn [app batches]; rewrite IH; reflexivity.
Qed.

Lemma batches_each (rs : list Response) (n : nat) :
  batches (map (fun r => HandleResponse r n) rs) = [].
Proof. induction rs; [reflexivity | exact IHrs]. Qed.

Lemma callbacks_app (e1 e2 : list event) :
  callbacks (e1 ++ e2) = (callbacks e1 ++ callbacks e2)%list.
Proof. apply filter_app. Qed.

Lemma callbacks_each (rs : list Response) (n : nat) :
  callbacks (map (fun r => HandleResponse r n) rs) =
  map (fun r => HandleResponse r n) rs.
Proof.
  induction rs as [|r rs IH]; [reflexivity|].
  unfold callbacks in *. cbn [map filter is_callback]. now rewrite IH.
Qed.

Lemma only_dialogs_batches (evs : list event) :
  only_dialogs evs -> batches evs = [].
Proof.
  induction 1 as [|e evs He _ IH]; [reflexivity|].
  destruct e; try discriminate; exact IH.
Qed.

Lemma only_dialogs_callbacks (evs : list event) :
  only_dialogs evs -> callbacks evs = [].
Proof.
  induction 1 as [|e evs He _ IH]; [reflexivity|].
  unfold callbacks in *. cbn [filter]. now rewrite He.
Qed.

Lemma default_handle_errors_dialogs (rs : list Response) :
  only_dialogs (default_handle_errors rs).
Proof.
  unfold default_handle_errors.
  destruct (map _ _); repeat constructor.
Qed.

Lemma persist_requests_dialogs cfg vs ts fs batch :
  only_dialogs (snd (fst (persist_requests cfg vs ts fs batch))).
Proof.
  unfold persist_requests, only_dialogs.
  destruct (history_file cfg) as [[|c name]|]; try constructor.
  destruct fs as [[|]|[e|] w [| |]]; cbn [fst snd];
    repeat match goal with
           | |- context [match ?x with _ => _ end] => destruct x; cbn [fst snd]
           end;
    repeat constructor.
Qed.

(** One call that sees [is_done] set: it drains what is in the container,
    gives the sorted batch to [handle_responses] and is not scheduled
    again. *)
Lemma gather_responses_done cfg vs ts fs pool count acc :
  is_done pool = true ->
  exists fs' evs out,
    gather_responses cfg vs ts fs pool count acc =
      (set_responses [] pool, fs', evs, out) /\
    (forall c a, out <> CallAgain c a) /\
    batches evs = [sort_by_key ordering (acc ++ responses pool)] /\
    callbacks evs =
      (map (fun r => HandleResponse r (List.length (requests pool))) (responses pool)
       ++ [HandleResponses (sort_by_key ordering (acc ++ responses pool))])%list.
Proof.
  intros Hdone. unfold gather_responses.
  rewrite drain_spec, Hdone.
  set (sorted := sort_by_key ordering (acc ++ responses pool)).
  pose proof (persist_requests_dialogs cfg vs ts fs sorted) as Hp.
  destruct (persist_requests cfg vs ts fs sorted) as [[fs' evp] r].
  cbn [fst snd] in Hp.
  pose proof (default_handle_errors_dialogs sorted) as He.
  assert (Hb : forall tl, only_dialogs tl ->
            batches (_show_activity_for_pending_requests (pending_requests pool) count ++
                     map (fun r => HandleResponse r (List.length (requests pool))) (responses pool) ++
                     [HandleResponses sorted] ++ default_handle_errors sorted ++ tl) = [sorted]).
  { intros tl Htl. rewrite !batches_app, batches_each.
    rewrite (only_dialogs_batches He), (only_dialogs_batches Htl). reflexivity. }
  assert (Hc : forall tl, callbacks tl = [] ->
            callbacks (_show_activity_for_pending_requests (pending_requests pool) count ++
                     map (fun r => HandleResponse r (List.length (requests pool))) (responses pool) ++
                     [HandleResponses sorted] ++ default_handle_errors sorted ++ tl) =
            (map (fun r => HandleResponse r (List.length (requests pool))) (responses pool)
             ++ [HandleResponses sorted])%list).
  { intros tl Htl. rewrite !callbacks_app, callbacks_each.
    rewrite (only_dialogs_callbacks He), Htl. reflexivity. }
  destruct r as [e|u].
  - exists fs', (_show_activity_for_pending_requests (pending_requests pool) count ++
                 map (fun r => HandleResponse r (List.length (requests pool))) (responses pool) ++
                 [HandleResponses sorted] ++ default_handle_errors sorted ++ evp)%list,
           (Raised e).
    repeat split.
    + discriminate.
    + apply Hb, Hp.
    + apply Hc, only_dialogs_callbacks, Hp.
  - exists fs', ((_show_activity_for_pending_requests (pending_requests pool) count ++
                 map (fun r => HandleResponse r (List.length (requests pool))) (responses pool) ++
                 [HandleResponses sorted] ++ default_handle_errors sorted ++ evp) ++
                 [SetStatus "requester.activity" ""])%list,
           Finished.
    repeat split.
    + discriminate.
    + rewrite <- !app_assoc. apply Hb.
      apply Forall_app; split; [exact Hp|]. repeat constructor.
    + rewrite <- !app_assoc. apply Hc, only_dialogs_callbacks.
      apply Forall_app; split; [exact Hp|]. repeat constructor.
Qed.

(** One call that sees [is_done] unset: it drains, calls no batch hook and
    is scheduled again with the accumulated responses. *)
Lemma gather_responses_pending cfg vs ts fs pool count acc :
  is_done pool = false ->
  exists evs,
    gather_responses cfg vs ts fs pool count acc =
      (set_responses [] pool, fs, evs,
       CallAgain (count + 1) (acc ++ responses pool)) /\
    batches evs = [].
Proof.
  intros Hdone. unfold gather_responses.
  rewrite drain_spec, Hdone.
  eexists; split; [reflexivity|].
  rewrite batches_app, batches_each. reflexivity.
Qed.

Lemma poll_snoc cfg vs ts s actions a :
  poll cfg vs ts s (actions ++ [a]) = step cfg vs ts (poll cfg vs ts s actions) a.
Proof. unfold poll. now rewrite fold_left_app. Qed.

Lemma appended_app (l1 l2 : list action) :
  appended (l1 ++ l2) = (appended l1 ++ appended l2)%list.
Proof.
  induction l1 as [|a l1 IH]; [reflexivity|].
  destruct a; cbn [app appended]; rewrite IH; reflexivity.
Qed.

Lemma poller_inv_step cfg vs ts actions s a :
  poller_inv actions s -> poller_inv (actions ++ [a]) (step cfg vs ts s a).
Proof.
  unfold poller_inv. intros H.
  destruct a; cbn [step].
  - (* a worker appends *)
    cbn [scheduled trace the_pool].
    destruct (scheduled s) as [[c acc]|].
    + destruct H as [Hb Ha]. split; [exact Hb|].
      cbn [set_responses responses].
      rewrite appended_app, app_assoc, Ha. reflexivity.
    + destruct H as (pre & post & -> & Hb).
      exists pre, (post ++ [Append r])%list. split; [|exact Hb].
      now rewrite <- app_assoc.
  - (* the flag is set *)
    cbn [scheduled trace the_pool].
    destruct (scheduled s) as [[c acc]|].
    + destruct H as [Hb Ha]. split; [exact Hb|].
      cbn [set_is_done responses].
      rewrite appended_app, app_nil_r. exact Ha.
    + destruct H as (pre & post & -> & Hb).
      exists pre, (post ++ [SetDone])%list. split; [|exact Hb].
      now rewrite <- app_assoc.
  - (* a call of gather_responses *)
    destruct (scheduled s) as [[c acc]|] eqn:Hs.
    + destruct H as [Hb Ha].
      destruct (is_done (the_pool s)) eqn:Hd.
      * destruct (gather_responses_done cfg vs ts (the_file s) (the_pool s) c acc Hd)
          as (fs' & evs & out & -> & Hout & Hbatch & _).
        cbn [scheduled trace].
        destruct out as [e| |c' a']; [| |exfalso; now apply (Hout c' a')].
        -- exists actions, []. split; [reflexivity|].
           rewrite batches_app, Hb, Hbatch, Ha. reflexivity.
        -- exists actions, []. split; [reflexivity|].
           rewrite batches_app, Hb, Hbatch, Ha. reflexivity.
      * destruct (gather_responses_pending cfg vs ts (the_file s) (the_pool s) c acc Hd)
          as (evs & -> & Hbatch).
        cbn [scheduled trace the_pool set_responses responses].
        split.
        -- rewrite batches_app, Hb, Hbatch. reflexivity.
        -- rewrite appended_app, !app_nil_r. exact Ha.
    + rewrite Hs. destruct H as (pre & post & -> & Hb).
      exists pre, (post ++ [Tick])%list. split; [|exact Hb].
      now rewrite <- app_assoc.
Qed.

Lemma poller_inv_poll cfg vs ts reqs fs actions :
  poller_inv actions (poll cfg vs ts (start reqs fs) actions).
Proof.
  induction actions as [|a actions IH] using rev_ind.
  - cbn. split; reflexivity.
  - rewrite poll_snoc. apply poller_inv_step, IH.
Qed.

(** C1. Whatever the order in which the workers append their responses and
    the poller drains them, a batch given to [handle_responses] is sorted by
    [ordering], ascending, and holds exactly the responses appended before
    the call of [gather_responses] that delivered it. *)
Theorem handle_responses_batch_sorted cfg vs ts reqs fs actions rs :
  In rs (batches (trace (poll cfg vs ts (start reqs fs) actions))) ->
  StronglySorted (key_le ordering) rs /\
  exists pre post,
    actions = (pre ++ Tick :: post)%list /\ Permutation (appended pre) rs.
Proof.
  intros Hin.
  pose proof (poller_inv_poll cfg vs ts reqs fs actions) as Hinv.
  unfold poller_inv in Hinv.
  destruct (scheduled (poll cfg vs ts (start reqs fs) actions)) as [[c acc]|].
  - destruct Hinv as [Hb _]. rewrite Hb in Hin. destruct Hin.
  - destruct Hinv as (pre & post & Hact & Hb).
    rewrite Hb in Hin. destruct Hin as [<-|[]].
    split.
    + apply sort_by_key_sorted.
    + exists pre, post. split; [exact Hact|]. apply sort_by_key_perm.
Qed.

(** The workers finish in the reverse of the submission order. *)
Lemma handle_responses_batch_sorted_witness :
  StronglySorted (key_le ordering) [ok 0 "/a"; failed 1 "/b"; ok 2 "/c"] /\
  exists pre post,
    [Tick; Append (ok 2 "/c"); Append (failed 1 "/b"); Tick; Append (ok 0 "/a");
     SetDone; Tick]
    = (pre ++ Tick :: post)%list /\
    Permutation (appended pre) [ok 0 "/a"; failed 1 "/b"; ok 2 "/c"].
Proof.
  apply (@handle_responses_batch_sorted cfg views now ["get('/a')"; "get('/b')"; "get('/c')"]
           (Missing true)).
  left. reflexivity.
Defined.

(** ** Cancellation *)

Lemma poll_unscheduled cfg vs ts s actions :
  scheduled s = None ->
  scheduled (poll cfg vs ts s actions) = None /\
  trace (poll cfg vs ts s actions) = trace s.
Proof.
  revert s.
  induction actions as [|a actions IH]; intros s Hs; [now split|].
  cbn [poll fold_left].
  assert (H : scheduled (step cfg vs ts s a) = None /\
              trace (step cfg vs ts s a) = trace s).
  { destruct a; cbn [step scheduled trace]; try (now split).
    rewrite Hs. now split. }
  destruct H as [H1 H2].
  destruct (IH _ H1) as [H3 H4].
  split; [exact H3|]. now rewrite <- H2.
Qed.

(** The last call.  The call of [gather_responses] that sees [is_done] set
    still drains the container, calling [handle_response] for each response
    in it, and calls [handle_responses] once with the sorted batch; it is not
    scheduled again, so whatever the workers append later reaches no hook. *)
Theorem gather_responses_last_call cfg vs ts s count acc later :
  scheduled s = Some (count, acc) ->
  is_done (the_pool s) = true ->
  let s1 := step cfg vs ts s Tick in
  callbacks (trace s1) =
    (callbacks (trace s)
     ++ map (fun r => HandleResponse r (List.length (requests (the_pool s))))
            (responses (the_pool s))
     ++ [HandleResponses (sort_by_key ordering (acc ++ responses (the_pool s)))])%list /\
  scheduled s1 = None /\
  trace (poll cfg vs ts s1 later) = trace s1.
Proof.
  intros Hs Hd s1.
  assert (H1 : callbacks (trace s1) =
    (callbacks (trace s)
     ++ map (fun r => HandleResponse r (List.length (requests (the_pool s))))
            (responses (the_pool s))
     ++ [HandleResponses (sort_by_key ordering (acc ++ responses (the_pool s)))])%list
    /\ scheduled s1 = None).
  { subst s1. cbn [step]. rewrite Hs.
    destruct (gather_responses_done cfg vs ts (the_file s) (the_pool s) count acc Hd)
      as (fs' & evs & out & -> & Hout & _ & Hcb).
    cbn [scheduled trace]. rewrite callbacks_app, Hcb. split; [reflexivity|].
    destruct out as [e| |c' a']; try reflexivity.
    exfalso. now apply (Hout c' a'). }
  destruct H1 as [H1 H2].
  split; [exact H1|]. split; [exact H2|].
  apply poll_unscheduled, H2.
Qed.

Lemma gather_responses_last_call_witness :
  let s := poll cfg views now (start ["get('/a')"; "get('/b')"] (Missing true))
             [Append (ok 1 "/b"); SetDone] in
  let s1 := step cfg views now s Tick in
  callbacks (trace s1) = [HandleResponse (ok 1 "/b") 2; HandleResponses [ok 1 "/b"]] /\
  scheduled s1 = None /\
  trace (poll cfg views now s1 [Append (ok 0 "/a"); Tick; Tick]) = trace s1.
Proof.
  apply (@gather_responses_last_call cfg views now
           (poll cfg views now (start ["get('/a')"; "get('/b')"] (Missing true))
              [Append (ok 1 "/b"); SetDone]) 0 []); reflexivity.
Defined.

(** The flag of a pool is set, then a worker appends its response: no hook
    has been called so far, and the next call of [gather_responses], which
    reads [is_done] as true before it drains, calls [handle_response] for the
    late response and [handle_responses] for the batch. *)
Lemma callbacks_after_done_observed :
  let before := poll cfg views now (start ["get('/a')"] (Missing true))
                  [Tick; SetDone; Append (ok 0 "/a")] in
  is_done (the_pool before) = true /\
  callbacks (trace before) = [] /\
  callbacks (trace (step cfg views now before Tick)) =
    [HandleResponse (ok 0 "/a") 1; HandleResponses [ok 0 "/a"]].
Proof. cbv zeta. repeat split. Qed.

(** ** The registry of pools *)

Lemma store_update_length f r (h : store) :
  List.length (store_update f r h) = List.length h.
Proof.
  revert r. induction h as [|p h IH]; intros [|r]; cbn; auto.
Qed.

Lemma store_get_update_same f r (h : store) :
  store_get r (store_update f r h) = option_map f (store_get r h).
Proof.
  unfold store_get. revert r.
  induction h as [|p h IH]; intros [|r]; cbn; auto.
Qed.

Lemma store_get_update_other f r r' (h : store) :
  r <> r' -> store_get r' (store_update f r h) = store_get r' h.
Proof.
  unfold store_get. revert r r'.
  induction h as [|p h IH]; intros [|r] [|r'] Hne; cbn; auto.
  congruence.
Qed.

Lemma evict_old_pools_bound (max_pools : nat) q h :
  List.length (fst (evict_old_pools max_pools q h)) <= max_pools.
Proof.
  revert h. induction q as [|old q IH]; intros h; cbn [evict_old_pools].
  - cbn. lia.
  - destruct (Nat.ltb_spec max_pools (List.length (old :: q))).
    + apply IH.
    + assumption.
Qed.

Lemma evict_old_pools_fits (max_pools : nat) q h :
  List.length q <= max_pools -> evict_old_pools max_pools q h = (q, h).
Proof.
  intros Hle. destruct q as [|old q]; [reflexivity|].
  cbn [evict_old_pools].
  destruct (Nat.ltb_spec max_pools (List.length (old :: q))); [lia|reflexivity].
Qed.

Lemma evict_old_pools_one (max_pools : nat) old q h :
  List.length q = max_pools ->
  evict_old_pools max_pools (old :: q) h = (q, store_update set_is_done old h).
Proof.
  intros Hlen. cbn [evict_old_pools].
  destruct (Nat.ltb_spec max_pools (List.length (old :: q))) as [_|H].
  - apply evict_old_pools_fits. lia.
  - cbn in H. lia.
Qed.

(** C8. After [make_requests] the registry holds at most its capacity.
    When it held exactly that many pools, the earliest-registered one leaves
    the queue and its [is_done] is [true] afterwards, its other fields being
    as they were; the others, the new pool included, stay in the queue in
    their order with their state untouched. *)
Theorem make_requests_registry_bounded (max_pools : nat) reqs reg reg' pool tasks :
  make_requests_with max_pools reqs reg = (reg', pool, tasks) ->
  qsize (RESPONSE_POOLS reg') <= max_pools /\
  (qsize (RESPONSE_POOLS reg) = max_pools ->
   Forall (fun r => r < List.length (pools reg)) (queue (RESPONSE_POOLS reg)) ->
   exists old rest p,
     (queue (RESPONSE_POOLS reg) ++ [pool])%list = old :: rest /\
     queue (RESPONSE_POOLS reg') = rest /\
     store_get old (pools reg ++ [ResponseThreadPool reqs]) = Some p /\
     store_get old (pools reg') =
       Some (mkPool true (responses p) (requests p) (pending_requests p)) /\
     (forall r, r <> old ->
        store_get r (pools reg') =
        store_get r (pools reg ++ [ResponseThreadPool reqs]))).
Proof.
  unfold make_requests_with, put, qsize. cbn [queue].
  intros Hm.
  match type of Hm with
  | context [evict_old_pools ?n ?q ?h] =>
      pose proof (evict_old_pools_bound n q h) as Hb;
      destruct (evict_old_pools n q h) as [q' h'] eqn:He
  end.
  injection Hm as <- <- <-. cbn [RESPONSE_POOLS queue pools] in *.
  split.
  - exact Hb.
  - intros Hfull Hwf.
    match type of He with
    | evict_old_pools _ ?q _ = _ => destruct q as [|old rest] eqn:Hq
    end.
    { apply (f_equal (@List.length _)) in Hq.
      rewrite length_app in Hq. cbn in Hq. unfold pool_ref in *. lia. }
    assert (Hrest : List.length rest = max_pools).
    { pose proof (f_equal (@List.length _) Hq) as Hl.
      rewrite length_app in Hl. cbn in Hl. unfold pool_ref in *. lia. }
    rewrite evict_old_pools_one in He by exact Hrest.
    injection He as <- <-.
    assert (Hvalid : old < List.length (pools reg ++ [ResponseThreadPool reqs])).
    { rewrite length_app. cbn. clear Hfull Hrest.
      unfold pool_ref in *. revert Hq Hwf.
      destruct (@queue nat (RESPONSE_POOLS reg)) as [|r0 q0]; cbn [app]; intros Hq Hwf.
      - injection Hq as <- _. lia.
      - injection Hq as <- _. inversion Hwf; subst. lia. }
    destruct (store_get old (pools reg ++ [ResponseThreadPool reqs])) as [p|] eqn:Hp.
    + exists old, rest, p.
      split; [exact Hq|]. split; [reflexivity|]. split; [exact Hp|].
      split.
      * rewrite store_get_update_same, Hp. reflexivity.
      * intros r Hr. apply store_get_update_other. congruence.
    + exfalso. unfold store_get in Hp.
      apply nth_error_None in Hp. lia.
Qed.

Lemma make_requests_registry_bounded_witness :
  qsize (mkQueue [2; 3]) <= 2 /\
  exists old rest p,
    (queue (RESPONSE_POOLS three_pools) ++ [3])%list = old :: rest /\
    [2; 3] = rest /\
    store_get old (pools three_pools ++ [ResponseThreadPool ["get('/d')"]]) = Some p /\
    store_get old three_pools_and_one =
      Some (mkPool true (responses p) (requests p) (pending_requests p)) /\
    (forall r, r <> old ->
       store_get r three_pools_and_one
       = store_get r (pools three_pools ++ [ResponseThreadPool ["get('/d')"]])).
Proof.
  destruct (@make_requests_registry_bounded 2 ["get('/d')"] three_pools
              (mkRegistry three_pools_and_one (mkQueue [2; 3]))
              3 [RunPool 3; GatherResponses 3 0 []] eq_refl) as [Hbound Hfull].
  split; [exact Hbound|].
  apply Hfull.
  - reflexivity.
  - repeat constructor.
Defined.


(** With the capacity of the class, [MAX_NUM_RESPONSE_POOLS = 10]. *)
Corollary make_requests_at_most_ten reqs reg :
  qsize (RESPONSE_POOLS (fst (fst (make_requests reqs reg)))) <= 10.
Proof.
  unfold make_requests, make_requests_with, qsize.
  match goal with
  | |- context [evict_old_pools ?n ?q ?h] =>
      pose proof (evict_old_pools_bound n q h) as Hb;
      destruct (evict_old_pools n q h) as [q' h']
  end.
  exact Hb.
Qed.

End CoreSpec.

(* ================================================================== *)
(** * Properties of request_commands.py                                 *)
(* ================================================================== *)
Module RequestCommandsSpec.

Import Python Core RequestCommands Samples.
Open Scope string_scope.
Open Scope list_scope.

(** C3, on the code.  [RequesterCancelRequestsCommand.run] iterates over the
    [queue.Queue] itself, which is not iterable: whatever the registry holds,
    the call raises [TypeError] and no pool is marked. *)
Theorem cancel_requests_raises (reg : Registry) :
  run reg = (reg, raise TypeError).
Proof. reflexivity. Qed.

End RequestCommandsSpec.

(* ================================================================== *)
(** * Properties of the history ([persist_requests])                    *)
(* ================================================================== *)
Module HistorySpec.

Import Python Core RequestCommands HistoryStore PythonFacts Samples.
Open Scope string_scope.
Open Scope list_scope.

Create HintDb history.
#[local] Hint Resolve od_remove_NoDup od_remove_gone od_of_pairs_NoDup : history.

(** ** The loops in closed form *)

Lemma od_touch_step key (v : json) d :
  NoDup (od_keys d) ->
  od_setitem key v (if od_contains key d then od_pop key d else d) =
  od_touch key v d.
Proof.
  intros Hnd. unfold od_touch, od_pop.
  destruct (od_contains key d) eqn:Hc.
  - apply od_setitem_absent. auto with history.
  - apply od_contains_false in Hc.
    rewrite od_remove_absent by exact Hc. now apply od_setitem_absent.
Qed.

Lemma od_touch_NoDup key (v : json) d :
  NoDup (od_keys d) -> NoDup (od_keys (od_touch key v d)).
Proof.
  intros Hnd. unfold od_touch, od_keys. rewrite map_app. cbn.
  apply NoDup_app.
  - apply od_remove_NoDup, Hnd.
  - repeat constructor. auto.
  - intros k Hk [<-|[]]. revert Hk. now apply od_remove_gone.
Qed.

Lemma inserted_NoDup ts vs batch d :
  NoDup (od_keys d) -> NoDup (od_keys (inserted ts vs batch d)).
Proof.
  revert d. induction batch as [|r batch IH]; intros d Hnd; [exact Hnd|].
  cbn [inserted]. destruct (response r) as [res|]; [|now apply IH].
  apply IH, od_touch_NoDup, Hnd.
Qed.

Lemma insert_new_requests_obj ts vs batch d :
  NoDup (od_keys d) ->
  insert_new_requests ts vs batch (JObj d) = ret (JObj (inserted ts vs batch d)).
Proof.
  revert d. induction batch as [|r batch IH]; intros d Hnd; [reflexivity|].
  cbn [insert_new_requests inserted].
  destruct (response r) as [res|]; [|now apply IH].
  cbn [py_contains bind ret].
  assert (H : (if od_contains (history_key res) d
               then py_pop (history_key res) (JObj d) else ret (JObj d)) =
              ret (JObj (if od_contains (history_key res) d
                         then od_pop (history_key res) d else d))).
  { destruct (od_contains (history_key res) d); reflexivity. }
  rewrite H. cbn [bind ret py_setitem].
  rewrite od_touch_step by exact Hnd.
  apply IH, od_touch_NoDup, Hnd.
Qed.

Lemma oldest_keys_firstn n iter_ keys :
  oldest_keys n iter_ keys = keys ++ firstn n iter_.
Proof.
  revert iter_ keys. induction n as [|n IH]; intros iter_ keys; cbn.
  - now rewrite app_nil_r.
  - destruct iter_ as [|k iter_]; cbn.
    + now rewrite app_nil_r.
    + rewrite IH, <- app_assoc. reflexivity.
Qed.

Lemma delete_keys_firstn n (d : OrderedDict json) :
  delete_keys (firstn n (od_keys d)) d = skipn n d.
Proof.
  revert d. induction n as [|n IH]; intros d; [reflexivity|].
  destruct d as [|[k v] d]; [reflexivity|].
  cbn [od_keys map fst firstn delete_keys skipn].
  unfold del_ignoring_KeyError, od_delitem, od_contains.
  cbn [od_keys map fst existsb od_remove]. rewrite String.eqb_refl.
  cbn. apply IH.
Qed.

Lemma remove_oldest_obj max_entries d :
  remove_oldest max_entries (JObj d) = ret (JObj (trimmed max_entries d)).
Proof.
  unfold remove_oldest, trimmed, overflow. cbn [py_len bind ret].
  destruct (Z.gtb_spec (Z.of_nat (List.length d) - max_entries) 0) as [Hgt|Hle].
  - cbn [py_keys bind ret].
    rewrite oldest_keys_firstn. cbn [app].
    now rewrite delete_keys_firstn.
  - replace (Z.to_nat (Z.of_nat (List.length d) - max_entries)) with 0%nat by lia.
    reflexivity.
Qed.

(** [persist_requests] on a readable, writable file that holds a JSON
    object: the object is loaded, the batch inserted, the oldest entries
    removed, and the result written back; nothing is shown and nothing
    raised. *)
Lemma persist_requests_object cfg vs ts name members batch :
  history_file cfg = Some name -> name <> "" ->
  persist_requests cfg vs ts (Present None true (Doc (JObj members))) batch =
  (Present None true
     (Doc (JObj (trimmed (max_entries_of cfg)
                   (inserted ts vs batch (loaded members))))),
   [], ret tt).
Proof.
  intros Hname Hne. unfold persist_requests. rewrite Hname.
  destruct name as [|c name]; [congruence|].
  cbn [json_loads object_pairs_hook bind ret].
  fold (loaded members).
  rewrite insert_new_requests_obj by (unfold loaded; auto with history).
  cbn [bind ret]. fold (max_entries_of cfg).
  rewrite remove_oldest_obj. reflexivity.
Qed.

(** ** Reading the file *)




(** ** The key of an entry *)

Lemma inserted_keeps_last ts vs batch d r res :
  NoDup (od_keys d) ->
  In r batch -> response r = Some res ->
  In (history_key res) (od_keys (inserted ts vs batch d)).
Proof.
  revert d. induction batch as [|r0 batch IH]; intros d Hnd Hin Hres; [destruct Hin|].
  cbn [inserted].
  assert (Hkeep : forall b d', NoDup (od_keys d') ->
            In (history_key res) (od_keys d') ->
            In (history_key res) (od_keys (inserted ts vs b d'))).
  { clear. induction b as [|r1 b IHb]; intros d' Hnd' Hk; [exact Hk|].
    cbn [inserted]. destruct (response r1) as [res1|]; [|now apply IHb].
    apply IHb; [now apply od_touch_NoDup|].
    unfold od_touch, od_keys. rewrite map_app. apply in_or_app.
    destruct (string_dec (history_key res) (history_key res1)) as [e|ne].
    - right. left. now rewrite e.
    - left. now apply od_remove_other. }
  destruct Hin as [->|Hin].
  - rewrite Hres. apply Hkeep; [now apply od_touch_NoDup|].
    unfold od_touch, od_keys. rewrite map_app. apply in_or_app. right. now left.
  - destruct (response r0) as [res0|]; [|now apply IH].
    apply IH; [now apply od_touch_NoDup | exact Hin | exact Hres].
Qed.

Lemma trimmed_fits max_entries (d : OrderedDict json) :
  (Z.of_nat (List.length d) <= max_entries)%Z -> trimmed max_entries d = d.
Proof.
  intros Hle. unfold trimmed, overflow.
  replace (Z.to_nat _) with 0%nat by lia. reflexivity.
Qed.

(** C5, as the code has it.  Each response of the batch that has a result is
    inserted under [method ++ ": " ++ url], with the url exactly as the
    response gives it (query string and trailing slash included); the key is
    in the file that is written unless the bound on the size removes it. *)
Theorem persist_requests_key cfg vs ts name members batch r res :
  history_file cfg = Some name -> name <> "" ->
  In r batch -> response r = Some res ->
  let stored := inserted ts vs batch (loaded members) in
  persist_requests cfg vs ts (Present None true (Doc (JObj members))) batch =
    (Present None true (Doc (JObj (trimmed (max_entries_of cfg) stored))), [], ret tt) /\
  In (method res ++ ": " ++ url res)%string (od_keys stored) /\
  ((Z.of_nat (List.length stored) <= max_entries_of cfg)%Z ->
   In (method res ++ ": " ++ url res)%string
      (od_keys (trimmed (max_entries_of cfg) stored))).
Proof.
  intros Hname Hne Hin Hres stored.
  assert (Hk : In (history_key res) (od_keys stored)).
  { apply (@inserted_keeps_last ts vs batch (loaded members) r res);
      [apply od_of_pairs_NoDup | exact Hin | exact Hres]. }
  split; [now apply persist_requests_object with (name := name)|].
  split; [exact Hk|].
  intros Hfit. rewrite trimmed_fits by exact Hfit. exact Hk.
Qed.

Lemma persist_requests_key_witness :
  let stored := inserted now views [ok 0 "http://x.org/api/?page=2"] (loaded []) in
  persist_requests cfg views now (Present None true (Doc (JObj [])))
      [ok 0 "http://x.org/api/?page=2"] =
    (Present None true (Doc (JObj (trimmed (max_entries_of cfg) stored))), [], ret tt) /\
  In ("GET" ++ ": " ++ "http://x.org/api/?page=2")%string (od_keys stored) /\
  In ("GET" ++ ": " ++ "http://x.org/api/?page=2")%string
     (od_keys (trimmed (max_entries_of cfg) stored)).
Proof.
  destruct (@persist_requests_key cfg views now "history.json" []
              [ok 0 "http://x.org/api/?page=2"] (ok 0 "http://x.org/api/?page=2")
              (mkHttpResponse "GET" "http://x.org/api/?page=2" 200)
              eq_refl ltac:(discriminate) (or_introl eq_refl) eq_refl)
    as (Hwritten & Hstored & Hkept).
  split; [exact Hwritten|]. split; [exact Hstored|].
  apply Hkept. unfold max_entries_of. simpl. lia.
Defined.

(** C5, as stated, fails.  The response of [GET http://x.org/api/] is stored
    under the key with the trailing slash; there is no entry under the
    method joined to the url without it, which is also what [base_url]
    gives. *)
Lemma history_key_keeps_slash :
  let res := mkHttpResponse "GET" "http://x.org/api/" 200 in
  base_url (url res) = "http://x.org/api" /\
  exists entry,
    persist_requests cfg views now (Missing true) [ok 0 "http://x.org/api/"] =
      (Present None true (Doc (JObj [("GET: http://x.org/api/", entry)])), [], ret tt) /\
    od_get (method res ++ ": " ++ base_url (url res))%string
           [("GET: http://x.org/api/", entry)] = None.
Proof.
  cbv zeta. split; [reflexivity|].
  eexists. split; reflexivity.
Qed.


(** ** One entry per key, the latest last *)

(** One pass of the insertion loop in memory, on a key that is in the
    mapping: one entry under that key, holding the new value, as the last
    entry of the mapping; the other entries keep their order. *)
Theorem insert_existing_key_moves_last ts vs d r res :
  NoDup (od_keys d) ->
  response r = Some res ->
  od_contains (history_key res) d = true ->
  exists d',
    insert_new_requests ts vs [r] (JObj d) = ret (JObj d') /\
    d' = od_remove (history_key res) d ++ [(history_key res, history_entry ts vs r res)] /\
    count_occ string_dec (od_keys d') (history_key res) = 1 /\
    od_get (history_key res) d' = Some (history_entry ts vs r res) /\
    last d' (EmptyString, JNull) = (history_key res, history_entry ts vs r res) /\
    List.length d' = List.length d.
Proof.
  intros Hnd Hres Hc.
  exists (od_touch (history_key res) (history_entry ts vs r res) d).
  split.
  { rewrite insert_new_requests_obj by exact Hnd.
    cbn [inserted]. now rewrite Hres. }
  unfold od_touch. split; [reflexivity|].
  pose proof (@od_remove_gone _ (history_key res) d Hnd) as Hgone.
  split; [|split; [|split]].
  - unfold od_keys in *. rewrite map_app, count_occ_app.
    rewrite (proj1 (count_occ_not_In string_dec _ _) Hgone).
    cbn [map fst count_occ].
    destruct (string_dec (history_key res) (history_key res)); [reflexivity|congruence].
  - now apply od_get_last.
  - apply last_last.
  - rewrite length_app. cbn.
    apply od_contains_In in Hc. apply od_remove_length in Hc. lia.
Qed.

Lemma insert_existing_key_moves_last_witness :
  exists d',
    insert_new_requests now views [ok 0 "/k1"] (JObj three_entries) = ret (JObj d') /\
    d' = od_remove "GET: /k1" three_entries ++
         [("GET: /k1", history_entry now views (ok 0 "/k1") (mkHttpResponse "GET" "/k1" 200))] /\
    count_occ string_dec (od_keys d') "GET: /k1" = 1 /\
    od_get "GET: /k1" d' =
      Some (history_entry now views (ok 0 "/k1") (mkHttpResponse "GET" "/k1" 200)) /\
    last d' (EmptyString, JNull) =
      ("GET: /k1", history_entry now views (ok 0 "/k1") (mkHttpResponse "GET" "/k1" 200)) /\
    List.length d' = List.length three_entries.
Proof.
  apply (@insert_existing_key_moves_last now views three_entries (ok 0 "/k1")
           (mkHttpResponse "GET" "/k1" 200)).
  - repeat constructor; simpl; intuition discriminate.
  - reflexivity.
  - reflexivity.
Defined.







(** Two responses of one batch with the same method and url: one entry, of
    the later response, after the entry that was there before. *)
Example persist_same_key_twice :
  persist_requests (mkConfig (Some "history.json") None) views now (Missing true)
      [ok 0 "/a"; ok 1 "/b"; again] =
    (Present None true
       (Doc (JObj
          [("GET: /b", history_entry now views (ok 1 "/b") (mkHttpResponse "GET" "/b" 200));
           ("GET: /a", history_entry now views again (mkHttpResponse "GET" "/a" 404))])),
     [], ret tt).
Proof. reflexivity. Qed.

(** ** The bound on the size *)

(** C7, as the code has it.  With a bound that is not negative, the mapping
    written by [persist_requests] holds at most [history_max_entries]
    entries; when the mapping after the insertions is larger, the entries
    removed are its first [overflow] ones and the size is the bound; when it
    is not, nothing is removed. *)
Theorem persist_requests_bounded cfg vs ts name members batch :
  history_file cfg = Some name -> name <> "" ->
  (0 <= max_entries_of cfg)%Z ->
  let stored := inserted ts vs batch (loaded members) in
  let over := (Z.of_nat (List.length stored) - max_entries_of cfg)%Z in
  exists final,
    persist_requests cfg vs ts (Present None true (Doc (JObj members))) batch =
      (Present None true (Doc (JObj final)), [], ret tt) /\
    (Z.of_nat (List.length final) <= max_entries_of cfg)%Z /\
    ((0 < over)%Z ->
       exists removed,
         stored = removed ++ final /\
         Z.of_nat (List.length removed) = over /\
         Z.of_nat (List.length final) = max_entries_of cfg) /\
    ((over <= 0)%Z -> final = stored).
Proof.
  intros Hname Hne Hmax stored over.
  exists (trimmed (max_entries_of cfg) stored).
  split; [now apply persist_requests_object with (name := name)|].
  unfold trimmed, overflow. fold over.
  split; [|split].
  - rewrite length_skipn. subst over. lia.
  - intros Hover. exists (firstn (Z.to_nat over) stored).
    split; [now rewrite firstn_skipn|].
    rewrite length_firstn, length_skipn. subst over. lia.
  - intros Hfit. replace (Z.to_nat over) with 0%nat by lia. reflexivity.
Qed.

Lemma persist_requests_bounded_witness :
  let stored := inserted now views [ok 0 "/k4"] (loaded three_entries) in
  exists final,
    persist_requests cfg views now (Present None true (Doc (JObj three_entries)))
        [ok 0 "/k4"] =
      (Present None true (Doc (JObj final)), [], ret tt) /\
    (Z.of_nat (List.length final) <= 2)%Z /\
    exists removed,
      stored = removed ++ final /\
      Z.of_nat (List.length removed) = 2%Z /\
      Z.of_nat (List.length final) = 2%Z.
Proof.
  destruct (@persist_requests_bounded cfg views now "history.json" three_entries
              [ok 0 "/k4"] eq_refl ltac:(discriminate)
              ltac:(unfold max_entries_of; simpl; lia))
    as (final & Hwritten & Hbound & Hover & _).
  exists final. split; [exact Hwritten|]. split; [exact Hbound|].
  apply Hover. unfold max_entries_of. simpl. lia.
Defined.

(** C7, as stated, fails when the bound is negative: three entries and a
    bound of [-1] give an overflow of four, the three entries are removed
    (the iterator is exhausted), and the mapping that is written has zero
    entries, which is more than the bound. *)
Lemma persist_requests_negative_bound :
  persist_requests negative_cfg views now
      (Present None true (Doc (JObj three_entries))) [] =
    (Present None true (Doc (JObj [])), [], ret tt) /\
  overflow (max_entries_of negative_cfg) three_entries = 4%Z /\
  ~ (Z.of_nat (List.length (@nil (string * json))) <= max_entries_of negative_cfg)%Z.
Proof.
  split; [reflexivity|]. split; [reflexivity|].
  unfold max_entries_of. simpl. lia.
Qed.

(** ** An empty batch *)

(** C9, as the code has it.  When the file holds a JSON value as
    [json.dumps] writes it (no key twice in an object) whose length is
    within the bound, persisting an empty batch writes the same document
    back. *)
Theorem persist_requests_empty_batch cfg vs ts name j n :
  history_file cfg = Some name -> name <> "" ->
  object_pairs_hook j = j ->
  py_len j = ret n ->
  (n <= max_entries_of cfg)%Z ->
  persist_requests cfg vs ts (Present None true (Doc j)) [] =
  (Present None true (Doc j), [], ret tt).
Proof.
  intros Hname Hne Hhook Hlen Hfit.
  unfold persist_requests. rewrite Hname.
  destruct name as [|c name]; [congruence|].
  cbn [json_loads insert_new_requests bind ret].
  rewrite Hhook. fold (max_entries_of cfg).
  unfold remove_oldest. rewrite Hlen. cbn [bind ret].
  destruct (Z.gtb_spec (n - max_entries_of cfg) 0) as [Hgt|_]; [lia|].
  reflexivity.
Qed.

Lemma persist_requests_empty_batch_witness :
  persist_requests (mkConfig (Some "history.json") None) views now
      (Present None true (Doc (JObj three_entries))) [] =
  (Present None true (Doc (JObj three_entries)), [], ret tt).
Proof.
  apply (@persist_requests_empty_batch (mkConfig (Some "history.json") None)
           views now "history.json" (JObj three_entries) 3%Z).
  - reflexivity.
  - discriminate.
  - reflexivity.
  - reflexivity.
  - unfold max_entries_of. simpl. lia.
Defined.

(** C9, as stated, fails.  An empty file is rewritten as the empty object, a
    missing file is created, and a file with more entries than the bound
    loses its oldest ones, all with an empty batch. *)
Lemma persist_requests_empty_batch_changes :
  persist_requests cfg views now (Present None true Blank) [] =
    (Present None true (Doc (JObj [])), [], ret tt) /\
  persist_requests cfg views now (Missing true) [] =
    (Present None true (Doc (JObj [])), [], ret tt) /\
  persist_requests cfg views now (Present None true (Doc (JObj three_entries))) [] =
    (Present None true (Doc (JObj (skipn 1 three_entries))), [], ret tt).
Proof. repeat split. Qed.

End HistorySpec.

(* ================================================================== *)
(** * Further properties of core/__init__.py                            *)
(* ================================================================== *)
Module CoreExtra.

Import Python Core HistoryStore Invariants PythonFacts Samples CoreSpec.
Open Scope string_scope.
Open Scope list_scope.

(** ** [get_activity_indicator] *)

Lemma spaces_str_length (n : nat) : String.length (spaces_str n) = n.
Proof. induction n as [|n IH]; [reflexivity|]. cbn. now rewrite IH. Qed.

Lemma string_length_app (a b : string) :
  String.length (a ++ b) = String.length a + String.length b.
Proof. induction a as [|c a IH]; [reflexivity|]. cbn. now rewrite IH. Qed.

Lemma get_activity_indicator_at (count spaces : nat) :
  get_activity_indicator count spaces =
  indicator_at (marker_position count spaces) spaces.
Proof. reflexivity. Qed.

Lemma marker_position_le (count spaces : nat) :
  0 < spaces -> marker_position count spaces <= spaces.
Proof.
  intros Hs. unfold marker_position.
  pose proof (Nat.mod_upper_bound count spaces ltac:(lia)).
  destruct (Nat.eqb _ 0); lia.
Qed.

Lemma indicator_length (count spaces : nat) :
  0 < spaces ->
  String.length (get_activity_indicator count spaces) = spaces + 3.
Proof.
  intros Hs. rewrite get_activity_indicator_at.
  pose proof (marker_position_le count Hs) as Hle.
  unfold indicator_at.
  rewrite !string_length_app, !spaces_str_length. cbn. lia.
Qed.

(** X1. The indicator has the same width at every count: the number of
    spaces and the marker between two brackets. *)
Theorem get_activity_indicator_width (count spaces : nat) :
  0 < spaces ->
  String.length (get_activity_indicator count spaces) = spaces + 3.
Proof. apply indicator_length. Qed.

Lemma get_activity_indicator_width_witness :
  String.length (get_activity_indicator 13 ACTIVITY_SPACES) = ACTIVITY_SPACES + 3.
Proof. apply get_activity_indicator_width. unfold ACTIVITY_SPACES. lia. Defined.

Lemma succ_div_mod (c s : nat) :
  0 < s ->
  (S c / s = c / s /\ S c mod s = S (c mod s) /\ S (c mod s) < s) \/
  (S c / s = S (c / s) /\ S c mod s = 0 /\ S (c mod s) = s).
Proof.
  intros Hs.
  pose proof (Nat.div_mod_eq c s) as Hc.
  pose proof (Nat.mod_upper_bound c s ltac:(lia)) as Hr.
  destruct (Nat.eq_dec (S (c mod s)) s) as [Heq|Hne].
  - right. split; [|split; [|exact Heq]].
    + symmetry. apply (Nat.div_unique (S c) s (S (c / s)) 0); [lia|nia].
    + symmetry. apply (Nat.mod_unique (S c) s (S (c / s)) 0); [lia|nia].
  - left. split; [|split; [|lia]].
    + symmetry. apply (Nat.div_unique (S c) s (c / s) (S (c mod s))); [lia|nia].
    + symmetry. apply (Nat.mod_unique (S c) s (c / s) (S (c mod s))); [lia|nia].
Qed.

Lemma succ_parity (q : nat) :
  (q mod 2 = 0 /\ S q mod 2 = 1) \/ (q mod 2 = 1 /\ S q mod 2 = 0).
Proof.
  destruct (succ_div_mod q (s := 2) ltac:(lia)) as [(_ & H2 & H3)|(_ & H2 & H3)].
  - left. split; lia.
  - right. split; lia.
Qed.

(** X2. From one count to the next the marker moves by one position and
    never leaves the brackets: on an even cycle ([count // spaces] even) it
    stands after [count % spaces] spaces and moves one to the right, on an
    odd cycle it stands after [spaces - count % spaces] spaces and moves one
    to the left. *)
Theorem get_activity_indicator_moves_by_one (count spaces : nat) :
  0 < spaces ->
  exists b b',
    get_activity_indicator count spaces = indicator_at b spaces /\
    get_activity_indicator (S count) spaces = indicator_at b' spaces /\
    b <= spaces /\ b' <= spaces /\
    ((count / spaces) mod 2 = 0 -> b = count mod spaces /\ b' = S b) /\
    ((count / spaces) mod 2 = 1 -> b = spaces - count mod spaces /\ b = S b').
Proof.
  intros Hs.
  exists (marker_position count spaces), (marker_position (S count) spaces).
  split; [reflexivity|]. split; [reflexivity|].
  split; [now apply marker_position_le|]. split; [now apply marker_position_le|].
  unfold marker_position.
  pose proof (Nat.mod_upper_bound count spaces ltac:(lia)) as Hr.
  destruct (succ_div_mod count Hs) as [(Hq & Hm & Hlt)|(Hq & Hm & Heq)];
    rewrite Hq, Hm.
  - split; intros Hpar; rewrite Hpar; cbn [Nat.eqb]; lia.
  - destruct (succ_parity (count / spaces)) as [[H0 H1]|[H0 H1]];
      rewrite H0, H1; cbn [Nat.eqb]; split; intros Hpar; try discriminate; lia.
Qed.

Lemma get_activity_indicator_moves_by_one_witness :
  (exists b b',
     get_activity_indicator 7 ACTIVITY_SPACES = indicator_at b ACTIVITY_SPACES /\
     get_activity_indicator 8 ACTIVITY_SPACES = indicator_at b' ACTIVITY_SPACES /\
     b = 7 /\ b' = 8) /\
  (exists b b',
     get_activity_indicator 11 ACTIVITY_SPACES = indicator_at b ACTIVITY_SPACES /\
     get_activity_indicator 12 ACTIVITY_SPACES = indicator_at b' ACTIVITY_SPACES /\
     b = 7 /\ b' = 6).
Proof.
  split.
  - destruct (@get_activity_indicator_moves_by_one 7 ACTIVITY_SPACES
                ltac:(unfold ACTIVITY_SPACES; lia))
      as (b & b' & H1 & H2 & _ & _ & Heven & _).
    exists b, b'. destruct (Heven eq_refl) as [Hb Hb'].
    repeat split; try assumption. rewrite Hb' , Hb. reflexivity.
  - destruct (@get_activity_indicator_moves_by_one 11 ACTIVITY_SPACES
                ltac:(unfold ACTIVITY_SPACES; lia))
      as (b & b' & H1 & H2 & _ & _ & _ & Hodd).
    exists b, b'. destruct (Hodd eq_refl) as [Hb Hb'].
    repeat split; try assumption.
    rewrite Hb in Hb'. cbn in Hb'. congruence.
Defined.

(** X3. The indicator repeats with period twice the number of spaces. *)
Theorem get_activity_indicator_period (count spaces : nat) :
  0 < spaces ->
  get_activity_indicator (count + 2 * spaces) spaces =
  get_activity_indicator count spaces.
Proof.
  intros Hs. rewrite !get_activity_indicator_at. f_equal.
  unfold marker_position.
  replace (count + 2 * spaces) with (count + 2 * spaces) by reflexivity.
  assert (Hd : (count + 2 * spaces) / spaces = count / spaces + 2).
  { rewrite Nat.div_add by lia. reflexivity. }
  assert (Hm : (count + 2 * spaces) mod spaces = count mod spaces).
  { rewrite Nat.Div0.mod_add. reflexivity. }
  rewrite Hd, Hm.
  replace (count / spaces + 2) with (count / spaces + 1 * 2) by lia.
  rewrite Nat.Div0.mod_add. reflexivity.
Qed.

Lemma get_activity_indicator_period_witness :
  get_activity_indicator (5 + 2 * ACTIVITY_SPACES) ACTIVITY_SPACES =
  get_activity_indicator 5 ACTIVITY_SPACES.
Proof. apply get_activity_indicator_period. unfold ACTIVITY_SPACES. lia. Defined.

(** ** [default_handle_errors] *)

Lemma filter_nil_iff {A : Type} (f : A -> bool) (l : list A) :
  filter f l = [] <-> Forall (fun x => f x = false) l.
Proof.
  induction l as [|x l IH]; cbn.
  - split; [constructor | reflexivity].
  - destruct (f x) eqn:Hx.
    + split; [discriminate|]. intros H. inversion H; subst. congruence.
    + rewrite IH. split.
      * intros H. now constructor.
      * intros H. now inversion H.
Qed.

(** X4. However many responses failed, the error report is at most one
    dialog, which joins the failed requests and their errors in the order of
    the batch; there is no dialog exactly when no response has an error. *)
Theorem default_handle_errors_one_dialog (rs : list Response) :
  (default_handle_errors rs = [] <->
   Forall (fun r => truthy (error r) = false) rs) /\
  (default_handle_errors rs = [] \/
   default_handle_errors rs =
     [ErrorMessage
        (join (newline ++ newline)%string
           (map (fun r => (request r ++ newline ++ error_text (error r))%string)
                (filter (fun r => truthy (error r)) rs)))]).
Proof.
  unfold default_handle_errors.
  rewrite <- filter_nil_iff.
  destruct (filter (fun r => truthy (error r)) rs) as [|r failing]; cbn [map].
  - split; [tauto | now left].
  - split; [split; discriminate | now right].
Qed.

(** ** [_run] *)

Lemma elapsed_ms (count : nat) :
  (Z.of_nat count * Z.of_nat REFRESH_MS / Z.of_nat REFRESH_MULTIPLIER =
   Z.of_nat count * 50)%Z.
Proof.
  unfold REFRESH_MS, REFRESH_MULTIPLIER.
  replace (Z.of_nat count * Z.of_nat 200)%Z with (Z.of_nat count * 50 * Z.of_nat 4)%Z
    by lia.
  apply Z.div_mul. lia.
Qed.

Lemma _run_alive (timeout : Z) (count : nat) :
  snd (_run (Some timeout) true count) =
  if (20 * timeout <? Z.of_nat count)%Z then EnvTimedOut
  else RunAgain (count + 1) 50.
Proof.
  unfold _run. rewrite elapsed_ms.
  destruct (Z.gtb_spec (Z.of_nat count * 50) (timeout * 1000)),
           (Z.ltb_spec (20 * timeout) (Z.of_nat count));
    try lia; reflexivity.
Qed.




Lemma wait_for_env_until (timeout_env : option Z) (alive : nat -> bool) (n : nat) :
  (forall k, k < n -> alive k = true) ->
  alive n = false ->
  (forall t, timeout_env = Some t -> (Z.of_nat n <= 20 * t + 1)%Z) ->
  forall remaining fuel count,
    remaining = n - count -> count <= n -> remaining < fuel ->
    wait_for_env fuel timeout_env alive count = Some (n, EnvReady).
Proof.
  intros Halive Hdead Htime.
  induction remaining as [|r IH]; intros fuel count Hrem Hle Hfuel.
  - assert (count = n) by lia. subst count.
    destruct fuel as [|fuel]; [lia|]. cbn [wait_for_env].
    unfold _run. rewrite Hdead. reflexivity.
  - destruct fuel as [|fuel]; [lia|]. cbn [wait_for_env].
    rewrite (Halive count) by lia.
    assert (Hout : snd (_run timeout_env true count) = RunAgain (count + 1) 50).
    { destruct timeout_env as [t|].
      - rewrite _run_alive. specialize (Htime t eq_refl).
        destruct (Z.ltb_spec (20 * t) (Z.of_nat count)); [lia | reflexivity].
      - reflexivity. }
    rewrite Hout. apply IH; lia.
Qed.

(** X6. When the thread ends before the timeout (or no timeout is set), the
    calls of [_run] go on, one count at a time, until the first call that
    finds the thread finished, and that call goes on to the requests; the
    timeout is not looked at once the thread has ended. *)
Theorem wait_for_env_ready (timeout_env : option Z) (alive : nat -> bool)
    (n fuel : nat) :
  (forall k, k < n -> alive k = true) ->
  alive n = false ->
  (forall t, timeout_env = Some t -> (Z.of_nat n <= 20 * t + 1)%Z) ->
  n < fuel ->
  wait_for_env fuel timeout_env alive 0 = Some (n, EnvReady).
Proof.
  intros Halive Hdead Htime Hfuel.
  apply (@wait_for_env_until timeout_env alive n Halive Hdead Htime n); lia.
Qed.

Lemma wait_for_env_ready_witness :
  wait_for_env 10 (Some 0%Z) (fun k => Nat.ltb k 1) 0 = Some (1, EnvReady).
Proof.
  apply (@wait_for_env_ready (Some 0%Z) (fun k => Nat.ltb k 1) 1 10).
  - intros k Hk. apply Nat.ltb_lt. exact Hk.
  - reflexivity.
  - intros t Ht. injection Ht as <-. simpl. lia.
  - lia.
Defined.

(** X7. Without a timeout and with a thread that never ends, the calls of
    [_run] never end. *)
Theorem wait_for_env_never_ends (fuel count : nat) :
  wait_for_env fuel None (fun _ => true) count = None.
Proof.
  revert count. induction fuel as [|fuel IH]; intros count; [reflexivity|].
  cbn [wait_for_env]. unfold _run. cbn [snd]. apply IH.
Qed.

(** ** A sequence of calls of [make_requests] *)

Lemma store_get_app_old (h : store) (p : Pool) (i : nat) :
  i < List.length h -> store_get i (h ++ [p]) = store_get i h.
Proof. intros Hi. unfold store_get. now rewrite nth_error_app1. Qed.

Lemma store_get_app_new (h : store) (p : Pool) :
  store_get (List.length h) (h ++ [p]) = Some p.
Proof.
  unfold store_get. rewrite nth_error_app2 by lia.
  now rewrite Nat.sub_diag.
Qed.

Lemma make_requests_with_registry (max_pools : nat) reqs reg :
  fst (fst (make_requests_with max_pools reqs reg)) =
  let r := evict_old_pools max_pools
             (queue (RESPONSE_POOLS reg) ++ [List.length (pools reg)])
             (pools reg ++ [ResponseThreadPool reqs]) in
  mkRegistry (snd r) (mkQueue (fst r)).
Proof.
  unfold make_requests_with, put. cbn [queue].
  destruct (evict_old_pools _ _ _) as [q' h']. reflexivity.
Qed.

Lemma registry_inv_step (max_pools : nat) submitted reqs reg :
  registry_inv max_pools submitted reg ->
  registry_inv max_pools (submitted ++ [reqs])
    (fst (fst (make_requests_with max_pools reqs reg))).
Proof.
  unfold registry_inv. intros (Hlen & Hq & Hpools).
  set (k := List.length submitted) in *.
  rewrite length_app. cbn [List.length]. replace (k + 1) with (S k) by lia.
  rewrite make_requests_with_registry. cbv zeta.
  rewrite Hq, Hlen.
  assert (Hseq : seq (k - Nat.min k max_pools) (Nat.min k max_pools) ++ [k] =
                 seq (k - Nat.min k max_pools) (S (Nat.min k max_pools))).
  { rewrite seq_S. f_equal. f_equal. lia. }
  unfold pool_ref in *. rewrite Hseq.
  assert (Hnew : forall i, i < S k ->
            store_get i (pools reg ++ [ResponseThreadPool reqs]) =
            Some (mkPool (Nat.ltb i (k - max_pools)) []
                         (nth i (submitted ++ [reqs]) [])
                         (nth i (submitted ++ [reqs]) []))).
  { intros i Hi. destruct (Nat.eq_dec i k) as [->|Hne].
    - rewrite <- Hlen at 1. rewrite store_get_app_new.
      rewrite app_nth2 by (fold k; lia). fold k. rewrite Nat.sub_diag. cbn [nth].
      destruct (Nat.ltb_spec k (k - max_pools)); [lia|]. reflexivity.
    - rewrite store_get_app_old by lia.
      rewrite app_nth1 by (fold k; lia). apply Hpools. lia. }
  destruct (Nat.le_gt_cases (S k) max_pools) as [Hfit|Hfull].
  - (* the queue is not full *)
    rewrite evict_old_pools_fits by (rewrite length_seq; lia).
    cbn [fst snd pools RESPONSE_POOLS queue].
    split; [rewrite length_app; cbn; lia|].
    split; [f_equal; lia|].
    intros i Hi. fold k in Hi. rewrite Hnew by lia.
    fold k. replace (k + 1) with (S k) by lia.
    destruct (Nat.ltb_spec i (k - max_pools)), (Nat.ltb_spec i (S k - max_pools));
      try lia; reflexivity.
  - (* the queue is full: the oldest pool leaves *)
    replace (Nat.min k max_pools) with max_pools in * by lia.
    cbn [seq].
    rewrite evict_old_pools_one by (rewrite length_seq; reflexivity).
    cbn [fst snd pools RESPONSE_POOLS queue].
    split; [rewrite store_update_length, length_app; cbn; lia|].
    split; [replace (Nat.min (S k) max_pools) with max_pools by lia; f_equal; lia|].
    intros i Hi. fold k in Hi. fold k. replace (k + 1) with (S k) by lia.
    destruct (Nat.eq_dec i (k - max_pools)) as [->|Hne].
    + rewrite store_get_update_same, Hnew by lia.
      unfold set_is_done.
      cbn [option_map is_done responses requests pending_requests].
      destruct (Nat.ltb_spec (k - max_pools) (S k - max_pools)); [|lia].
      reflexivity.
    + rewrite store_get_update_other by lia. rewrite Hnew by lia.
      destruct (Nat.ltb_spec i (k - max_pools)), (Nat.ltb_spec i (S k - max_pools));
        try lia; reflexivity.
Qed.

Lemma register_all_snoc (max_pools : nat) submitted reqs reg :
  register_all max_pools (submitted ++ [reqs]) reg =
  fst (fst (make_requests_with max_pools reqs (register_all max_pools submitted reg))).
Proof. unfold register_all. now rewrite fold_left_app. Qed.

(** X8. After any number of calls of [make_requests] on an empty registry,
    the queue holds the references of the most recent pools, at most
    [max_pools] of them, oldest first; every pool that has left the queue is
    marked done and no other is, and no pool's requests or responses are
    touched. *)
Theorem register_all_keeps_latest (max_pools : nat) (submitted : list (list string)) :
  let k := List.length submitted in
  let reg := register_all max_pools submitted (mkRegistry [] (mkQueue [])) in
  List.length (pools reg) = k /\
  queue (RESPONSE_POOLS reg) = seq (k - Nat.min k max_pools) (Nat.min k max_pools) /\
  forall i, i < k ->
    store_get i (pools reg) =
    Some (mkPool (Nat.ltb i (k - max_pools)) [] (nth i submitted []) (nth i submitted [])).
Proof.
  induction submitted as [|reqs submitted IH] using rev_ind.
  - cbn. split; [reflexivity|]. split; [reflexivity|]. intros i Hi. lia.
  - rewrite register_all_snoc. apply registry_inv_step. exact IH.
Qed.

(** ** The poller, call by call *)

Lemma handled_app (e1 e2 : list event) :
  handled (e1 ++ e2) = handled e1 ++ handled e2.
Proof.
  induction e1 as [|e e1 IH]; [reflexivity|].
  destruct e; cbn [app handled]; rewrite IH; reflexivity.
Qed.

Lemma handled_each (rs : list Response) (n : nat) :
  handled (map (fun r => HandleResponse r n) rs) = rs.
Proof. induction rs as [|r rs IH]; [reflexivity|]. cbn. now rewrite IH. Qed.

Lemma only_dialogs_handled (evs : list event) :
  only_dialogs evs -> handled evs = [].
Proof.
  induction 1 as [|e evs He _ IH]; [reflexivity|].
  destruct e; try discriminate; exact IH.
Qed.

(** All of one call that sees [is_done] set. *)
Lemma gather_responses_final cfg vs ts fs pool count acc :
  is_done pool = true ->
  exists evs out,
    gather_responses cfg vs ts fs pool count acc =
      (set_responses [] pool,
       fst (fst (persist_requests cfg vs ts fs
                   (sort_by_key ordering (acc ++ responses pool)))),
       evs, out) /\
    (forall c a, out <> CallAgain c a) /\
    handled evs = responses pool.
Proof.
  intros Hdone. unfold gather_responses.
  rewrite drain_spec, Hdone.
  set (sorted := sort_by_key ordering (acc ++ responses pool)).
  pose proof (persist_requests_dialogs cfg vs ts fs sorted) as Hp.
  destruct (persist_requests cfg vs ts fs sorted) as [[fs' evp] r].
  cbn [fst snd] in *.
  pose proof (default_handle_errors_dialogs sorted) as He.
  assert (Hh : forall tl, only_dialogs tl ->
            handled (_show_activity_for_pending_requests (pending_requests pool) count ++
                     map (fun r => HandleResponse r (List.length (requests pool))) (responses pool) ++
                     [HandleResponses sorted] ++ default_handle_errors sorted ++ tl) =
            responses pool).
  { intros tl Htl. rewrite !handled_app, handled_each.
    rewrite (only_dialogs_handled He), (only_dialogs_handled Htl).
    cbn. now rewrite app_nil_r. }
  destruct r as [e|u]; eexists; eexists; (split; [reflexivity|]); split;
    try discriminate.
  - apply Hh, Hp.
  - rewrite <- !app_assoc. apply Hh.
    apply Forall_app; split; [exact Hp|]. repeat constructor.
Qed.

Lemma gather_responses_again cfg vs ts fs pool count acc :
  is_done pool = false ->
  exists evs,
    gather_responses cfg vs ts fs pool count acc =
      (set_responses [] pool, fs, evs,
       CallAgain (count + 1) (acc ++ responses pool)) /\
    handled evs = responses pool /\ batches evs = [].
Proof.
  intros Hdone. unfold gather_responses.
  rewrite drain_spec, Hdone.
  eexists; split; [reflexivity|]. split.
  - rewrite handled_app, handled_each. reflexivity.
  - rewrite batches_app, batches_each. reflexivity.
Qed.

Lemma sets_done_app (l1 l2 : list action) :
  sets_done (l1 ++ l2) = sets_done l1 || sets_done l2.
Proof.
  induction l1 as [|a l1 IH]; [reflexivity|].
  destruct a; cbn [app sets_done]; auto.
Qed.

Lemma count_ticks_app (l1 l2 : list action) :
  count_ticks (l1 ++ l2) = count_ticks l1 + count_ticks l2.
Proof.
  induction l1 as [|a l1 IH]; [reflexivity|].
  destruct a; cbn [app count_ticks]; rewrite IH; reflexivity.
Qed.

Lemma poller_state_step cfg vs ts reqs fs0 actions s a :
  poller_state cfg vs ts reqs fs0 actions s ->
  poller_state cfg vs ts reqs fs0 (actions ++ [a]) (step cfg vs ts s a).
Proof.
  unfold poller_state. intros [Hreq H].
  destruct a; cbn [step].
  - (* a worker appends *)
    cbn [scheduled trace the_pool the_file set_responses requests responses is_done].
    split; [exact Hreq|].
    destruct (scheduled s) as [[c acc]|].
    + destruct H as (Hh & Ha & Hf & Hc & Hd).
      rewrite appended_app, count_ticks_app, sets_done_app, app_assoc, Ha.
      cbn. rewrite Nat.add_0_r, orb_false_r. auto.
    + destruct H as (pre & post & -> & Hsd & Hh & Hr & Hf).
      exists pre, (post ++ [Append r]).
      rewrite <- app_assoc, appended_app, Hr. cbn. auto.
  - (* the flag is set *)
    cbn [scheduled trace the_pool the_file set_is_done requests responses is_done].
    split; [exact Hreq|].
    destruct (scheduled s) as [[c acc]|].
    + destruct H as (Hh & Ha & Hf & Hc & Hd).
      rewrite appended_app, count_ticks_app, sets_done_app, app_nil_r.
      cbn. rewrite Nat.add_0_r, orb_true_r. auto.
    + destruct H as (pre & post & -> & Hsd & Hh & Hr & Hf).
      exists pre, (post ++ [SetDone]).
      rewrite <- app_assoc, appended_app, Hr. cbn. rewrite app_nil_r. auto.
  - (* a call of gather_responses *)
    destruct (scheduled s) as [[c acc]|] eqn:Hs.
    + destruct H as (Hh & Ha & Hf & Hc & Hd).
      destruct (is_done (the_pool s)) eqn:Hdone.
      * destruct (gather_responses_final cfg vs ts (the_file s) (the_pool s) c acc Hdone)
          as (evs & out & -> & Hout & Hev).
        cbn [scheduled trace the_pool the_file set_responses requests responses].
        split; [exact Hreq|].
        assert (Hnone : match out with CallAgain c0 a0 => Some (c0, a0) | _ => None end
                        = @None (nat * list Response)).
        { destruct out as [e| |c' a']; try reflexivity.
          exfalso. now apply (Hout c' a'). }
        rewrite Hnone.
        exists actions, []. split; [reflexivity|].
        split; [congruence|].
        rewrite handled_app, Hh, Hev, Ha, Hf. auto.
      * destruct (gather_responses_again cfg vs ts (the_file s) (the_pool s) c acc Hdone)
          as (evs & -> & Hev & _).
        cbn [scheduled trace the_pool the_file set_responses requests responses is_done].
        split; [exact Hreq|].
        rewrite handled_app, Hh, Hev, appended_app, count_ticks_app, sets_done_app.
        cbn. rewrite !app_nil_r, orb_false_r.
        repeat split; auto; try lia. congruence.
    + rewrite Hs. split; [exact Hreq|].
      destruct H as (pre & post & -> & Hsd & Hh & Hr & Hf).
      exists pre, (post ++ [Tick]).
      rewrite <- app_assoc, appended_app, Hr. cbn. rewrite app_nil_r. auto.
Qed.

Lemma poller_state_poll cfg vs ts reqs fs0 actions :
  poller_state cfg vs ts reqs fs0 actions (poll cfg vs ts (start reqs fs0) actions).
Proof.
  induction actions as [|a actions IH] using rev_ind.
  - cbn. repeat split.
  - rewrite poll_snoc. apply poller_state_step, IH.
Qed.

(** X9. Every response a worker has appended is either given to
    [handle_response], once and in the order of arrival, or still waiting in
    the pool's container: the responses handled so far followed by those in
    the container are the appended responses. *)
Theorem handle_response_arrival_order cfg vs ts reqs fs0 actions :
  let s := poll cfg vs ts (start reqs fs0) actions in
  handled (trace s) ++ responses (the_pool s) = appended actions.
Proof.
  cbv zeta.
  destruct (poller_state_poll cfg vs ts reqs fs0 actions) as [_ H].
  destruct (scheduled (poll cfg vs ts (start reqs fs0) actions)) as [[c acc]|].
  - destruct H as (Hh & Ha & _). now rewrite Hh.
  - destruct H as (pre & post & -> & _ & Hh & Hr & _).
    rewrite Hh, Hr, appended_app. reflexivity.
Qed.

Lemma own_app (l1 l2 : list shared_action) : own (l1 ++ l2) = own l1 ++ own l2.
Proof.
  induction l1 as [|a l1 IH]; [reflexivity|].
  destruct a; cbn [app own]; rewrite IH; reflexivity.
Qed.

Lemma last_written_app (fs0 : file) (l1 l2 : list shared_action) :
  last_written fs0 (l1 ++ l2) = last_written (last_written fs0 l1) l2.
Proof.
  revert fs0. induction l1 as [|a l1 IH]; intros fs0; [reflexivity|].
  destruct a; cbn [app last_written]; apply IH.
Qed.

Lemma shared_file_inv_step cfg vs ts fs0 actions s a :
  shared_file_inv cfg vs ts fs0 actions s ->
  shared_file_inv cfg vs ts fs0 (actions ++ [a]) (shared_step cfg vs ts s a).
Proof.
  unfold shared_file_inv. intros H.
  destruct a as [[r| |]|fs]; cbn [shared_step step].
  - (* a worker of the pool appends *)
    cbn [scheduled the_pool the_file set_responses responses].
    destruct (scheduled s) as [[c acc]|].
    + destruct H as [Ha Hf].
      rewrite own_app, appended_app, last_written_app, app_assoc, Ha. cbn. auto.
    + destruct H as (pre & post & -> & Hf).
      exists pre, (post ++ [Own (Append r)]).
      rewrite <- app_assoc, last_written_app. cbn. auto.
  - (* the flag of the pool is set *)
    cbn [scheduled the_pool the_file set_is_done responses].
    destruct (scheduled s) as [[c acc]|].
    + destruct H as [Ha Hf].
      rewrite own_app, appended_app, last_written_app, app_nil_r. cbn. auto.
    + destruct H as (pre & post & -> & Hf).
      exists pre, (post ++ [Own SetDone]).
      rewrite <- app_assoc, last_written_app. cbn. auto.
  - (* a call of gather_responses for the pool *)
    destruct (scheduled s) as [[c acc]|] eqn:Hs.
    + destruct H as [Ha Hf].
      destruct (is_done (the_pool s)) eqn:Hdone.
      * destruct (gather_responses_final cfg vs ts (the_file s) (the_pool s) c acc Hdone)
          as (evs & out & -> & Hout & _).
        cbn [scheduled the_file].
        assert (Hnone : match out with CallAgain c0 a0 => Some (c0, a0) | _ => None end
                        = @None (nat * list Response)).
        { destruct out as [e| |c' a']; try reflexivity.
          exfalso. now apply (Hout c' a'). }
        rewrite Hnone.
        exists actions, []. split; [reflexivity|].
        cbn [last_written]. now rewrite Ha, Hf.
      * destruct (gather_responses_again cfg vs ts (the_file s) (the_pool s) c acc Hdone)
          as (evs & -> & _).
        cbn [scheduled the_pool the_file set_responses responses].
        rewrite own_app, appended_app, last_written_app, !app_nil_r. cbn. auto.
    + rewrite Hs. destruct H as (pre & post & -> & Hf).
      exists pre, (post ++ [Own Tick]).
      rewrite <- app_assoc, last_written_app. cbn. auto.
  - (* the poller of another pool persists its batch *)
    cbn [scheduled the_pool the_file].
    destruct (scheduled s) as [[c acc]|].
    + destruct H as [Ha Hf].
      rewrite own_app, last_written_app, app_nil_r. cbn. auto.
    + destruct H as (pre & post & -> & Hf).
      exists pre, (post ++ [OtherWrites fs]).
      rewrite <- app_assoc, last_written_app. cbn. auto.
Qed.

(** X10. The poller of a pool does not write the history file while it is
    scheduled: the file is then what the pollers of other pools last made of
    it, or the file of the start.  Its last call persists once, to the file
    as it is at that call, the sorted batch of the responses appended before
    the call; after that only the others change the file. *)
Theorem history_written_by_last_call cfg vs ts reqs fs0 actions :
  let s := poll_shared cfg vs ts (start reqs fs0) actions in
  match scheduled s with
  | Some _ => the_file s = last_written fs0 actions
  | None =>
      exists pre post,
        actions = pre ++ Own Tick :: post /\
        the_file s =
          last_written
            (fst (fst (persist_requests cfg vs ts (last_written fs0 pre)
                         (sort_by_key ordering (appended (own pre))))))
            post
  end.
Proof.
  cbv zeta.
  assert (H : shared_file_inv cfg vs ts fs0 actions
                (poll_shared cfg vs ts (start reqs fs0) actions)).
  { induction actions as [|a actions IH] using rev_ind.
    - cbn. split; reflexivity.
    - unfold poll_shared in *. rewrite fold_left_app. cbn [fold_left].
      apply shared_file_inv_step, IH. }
  unfold shared_file_inv in H.
  destruct (scheduled (poll_shared cfg vs ts (start reqs fs0) actions)) as [[c acc]|].
  - apply H.
  - exact H.
Qed.

(** Two pools and one file: the other pool's poller persists [/k1] while
    this pool is still polled; the last call of this pool's poller reads the
    file as the other left it and adds [/k2]. *)
Example history_of_two_pools :
  the_file
    (poll_shared (mkConfig (Some "history.json") None) views now
       (start ["get('/k2')"] (Missing true))
       [Own Tick;
        OtherWrites
          (Present None true
             (Doc (JObj [("GET: /k1",
                          history_entry 1 views (ok 0 "/k1")
                            (mkHttpResponse "GET" "/k1" 200))])));
        Own (Append (ok 0 "/k2")); Own SetDone; Own Tick]) =
  Present None true
    (Doc (JObj [("GET: /k1",
                 history_entry 1 views (ok 0 "/k1") (mkHttpResponse "GET" "/k1" 200));
                ("GET: /k2",
                 history_entry now views (ok 0 "/k2") (mkHttpResponse "GET" "/k2" 200))])).
Proof. reflexivity. Qed.

Lemma poll_app cfg vs ts s l1 l2 :
  poll cfg vs ts s (l1 ++ l2) = poll cfg vs ts (poll cfg vs ts s l1) l2.
Proof. unfold poll. apply fold_left_app. Qed.

(** X11. The poller stops exactly at the first call of [gather_responses]
    that comes after the flag was set: it is no longer scheduled if and only
    if some call was preceded by a setting of the flag.  In particular a pool
    whose flag is never set is polled for ever. *)
Theorem poller_stops_iff_done_seen cfg vs ts reqs fs0 actions :
  scheduled (poll cfg vs ts (start reqs fs0) actions) = None <->
  exists pre post, actions = pre ++ Tick :: post /\ sets_done pre = true.
Proof.
  split.
  - intros Hnone.
    destruct (poller_state_poll cfg vs ts reqs fs0 actions) as [_ H].
    rewrite Hnone in H. destruct H as (pre & post & Hact & Hsd & _).
    now exists pre, post.
  - intros (pre & post & -> & Hsd).
    rewrite poll_app. cbn [poll fold_left]. fold (poll cfg vs ts).
    apply poll_unscheduled.
    destruct (poller_state_poll cfg vs ts reqs fs0 pre) as [_ H].
    cbn [step].
    destruct (scheduled (poll cfg vs ts (start reqs fs0) pre)) as [[c acc]|] eqn:Hs.
    + destruct H as (_ & _ & _ & _ & Hd). rewrite Hsd in Hd.
      destruct (gather_responses_final cfg vs ts
                  (the_file (poll cfg vs ts (start reqs fs0) pre))
                  (the_pool (poll cfg vs ts (start reqs fs0) pre)) c acc Hd)
        as (evs & out & -> & Hout & _).
      cbn [scheduled].
      destruct out as [e| |c' a']; try reflexivity.
      exfalso. now apply (Hout c' a').
    + exact Hs.
Qed.

(** X12. [handle_responses] is called at most once for a pool: no batch has
    been delivered while the poller is scheduled, and exactly one when it has
    stopped. *)
Theorem handle_responses_at_most_once cfg vs ts reqs fs0 actions :
  let s := poll cfg vs ts (start reqs fs0) actions in
  (scheduled s <> None /\ batches (trace s) = []) \/
  (scheduled s = None /\ exists rs, batches (trace s) = [rs]).
Proof.
  cbv zeta.
  pose proof (poller_inv_poll cfg vs ts reqs fs0 actions) as H.
  unfold poller_inv in H.
  destruct (scheduled (poll cfg vs ts (start reqs fs0) actions)) as [[c acc]|].
  - left. split; [discriminate | apply H].
  - right. split; [reflexivity|].
    destruct H as (pre & post & _ & Hb). eauto.
Qed.

(** X13. Responses with the same [ordering] come in the batch in the order
    in which they arrived (the sort is stable). *)
Theorem handle_responses_batch_stable cfg vs ts reqs fs0 actions rs :
  In rs (batches (trace (poll cfg vs ts (start reqs fs0) actions))) ->
  exists pre post,
    actions = pre ++ Tick :: post /\
    forall k,
      filter (fun r => Z.eqb (ordering r) k) rs =
      filter (fun r => Z.eqb (ordering r) k) (appended pre).
Proof.
  intros Hin.
  pose proof (poller_inv_poll cfg vs ts reqs fs0 actions) as H.
  unfold poller_inv in H.
  destruct (scheduled (poll cfg vs ts (start reqs fs0) actions)) as [[c acc]|].
  - destruct H as [Hb _]. rewrite Hb in Hin. destruct Hin.
  - destruct H as (pre & post & Hact & Hb).
    rewrite Hb in Hin. destruct Hin as [<-|[]].
    exists pre, post. split; [exact Hact|].
    intros k. apply sort_by_key_stable.
Qed.

Lemma handle_responses_batch_stable_witness :
  exists pre post,
    [Append (ok 1 "/b"); Append (ok 0 "/a"); Append (failed 1 "/c"); SetDone; Tick]
    = pre ++ Tick :: post /\
    forall k,
      filter (fun r => Z.eqb (ordering r) k) [ok 0 "/a"; ok 1 "/b"; failed 1 "/c"] =
      filter (fun r => Z.eqb (ordering r) k) (appended pre).
Proof.
  apply (@handle_responses_batch_stable cfg views now ["get('/a')"] (Missing true)).
  left. reflexivity.
Defined.

(** The count passed from call to call is the number of calls so far. *)
Lemma poller_count cfg vs ts reqs fs0 actions count acc :
  scheduled (poll cfg vs ts (start reqs fs0) actions) = Some (count, acc) ->
  count = count_ticks actions.
Proof.
  intros Hs.
  destruct (poller_state_poll cfg vs ts reqs fs0 actions) as [_ H].
  rewrite Hs in H. now destruct H as (_ & _ & _ & Hc & _).
Qed.

(** ** [get_env] *)

Section GetEnvFacts.
Variable V : Type.
Variable exec_env : string -> string + list (string * V).
Variable read_file : string -> string + string.
Variable load_source : string -> string + list (string * V).

Lemma dict_update_nil (d : list (string * V)) : dict_update d [] = d.
Proof. reflexivity. Qed.

Lemma od_get_setitem (k key : string) (v : V) (d : list (string * V)) :
  od_get k (od_setitem key v d) =
  if String.eqb k key then Some v else od_get k d.
Proof.
  induction d as [|[k0 w] d IH]; cbn [od_setitem od_get].
  - destruct (String.eqb k key); reflexivity.
  - destruct (String.eqb_spec key k0) as [->|Hne]; cbn [od_get].
    + destruct (String.eqb k k0); reflexivity.
    + destruct (String.eqb_spec k k0) as [->|Hne'].
      * destruct (String.eqb_spec k0 key); [congruence | reflexivity].
      * exact IH.
Qed.

Lemma od_get_absent (k : string) (d : list (string * V)) :
  ~ In k (od_keys d) -> od_get k d = None.
Proof.
  induction d as [|[k0 w] d IH]; intros Hn; [reflexivity|].
  cbn [od_get]. destruct (String.eqb_spec k k0) as [->|Hne].
  - exfalso. apply Hn. now left.
  - apply IH. intros H. apply Hn. now right.
Qed.

(** A binding of the updating dictionary wins. *)
Lemma od_get_dict_update (k : string) (d2 d : list (string * V)) :
  NoDup (od_keys d2) ->
  od_get k (dict_update d d2) =
  match od_get k d2 with
  | Some v => Some v
  | None => od_get k d
  end.
Proof.
  revert d. induction d2 as [|[k0 v0] d2 IH]; intros d Hnd; [reflexivity|].
  cbn in Hnd. inversion Hnd as [|? ? Hk Hd2]; subst.
  unfold dict_update in *. cbn [fold_left fst snd].
  rewrite IH by exact Hd2. rewrite od_get_setitem. cbn [od_get].
  destruct (String.eqb_spec k k0) as [->|Hne]; [|reflexivity].
  now rewrite od_get_absent.
Qed.

Lemma dict_update_empty_iff (d d2 : list (string * V)) :
  dict_update d d2 = [] <-> d = [] /\ d2 = [].
Proof.
  split; [|now intros [-> ->]].
  destruct d2 as [|[k v] d2]; [now split|].
  unfold dict_update. cbn [fold_left fst snd]. intros H. exfalso.
  assert (Hne : forall (l : list (string * V)) acc, acc <> [] ->
            fold_left (fun acc kv => od_setitem (fst kv) (snd kv) acc) l acc <> []).
  { induction l as [|[k1 v1] l IHl]; intros acc Hacc; [exact Hacc|].
    cbn [fold_left]. apply IHl.
    destruct acc as [|[k2 v2] acc]; [congruence|].
    cbn [fst snd od_setitem]. destruct (String.eqb k1 k2); discriminate. }
  apply (Hne d2 (od_setitem k v d)); [|exact H].
  destruct d as [|[k2 v2] d]; cbn [od_setitem]; [discriminate|].
  destruct (String.eqb k k2); discriminate.
Qed.

(** The environment [get_env] computes is the three contributions, each
    updating the one before. *)
Lemma get_env_merged (vs : ViewSettings) (status_errors : list string) :
  snd (get_env exec_env read_file load_source vs status_errors) =
  let merged := dict_update (dict_update (from_env_string exec_env vs)
                                         (from_file exec_env read_file vs))
                            (from_env_file load_source vs) in
  match merged with
  | [] => None
  | _ => Some merged
  end.
Proof.
  cbv zeta. unfold get_env, from_env_string, from_file, from_env_file.
  destruct (get_env_dict_from_string exec_env (env_string vs)) as [ev1 d1].
  cbn [snd].
  destruct (file_name vs) as [[|c f]|];
    destruct (env_file vs) as [[|c' p']|];
    repeat match goal with
           | |- context [read_file ?f] => destruct (read_file f)
           | |- context [load_source ?f] => destruct (load_source f)
           | |- context [get_env_dict_from_string exec_env ?b] =>
               destruct (get_env_dict_from_string exec_env b)
           end;
    cbn [snd]; rewrite ?dict_update_nil; reflexivity.
Qed.

(** X14. In the environment [get_env] returns, a name bound by the env file
    has the env file's value, else the value of the env block of the
    requester file, else the value of the view's env string; a source that
    is not set, cannot be read or fails to evaluate binds nothing and the
    others still count.  The result is [None] exactly when no source binds
    anything. *)
Theorem get_env_precedence (vs : ViewSettings) (status_errors : list string) :
  (forall s d, exec_env s = inr d -> NoDup (od_keys d)) ->
  (forall path d, load_source path = inr d -> NoDup (od_keys d)) ->
  let env := snd (get_env exec_env read_file load_source vs status_errors) in
  (forall k,
     od_get k (match env with Some d => d | None => [] end) =
     match od_get k (from_env_file load_source vs) with
     | Some v => Some v
     | None =>
         match od_get k (from_file exec_env read_file vs) with
         | Some v => Some v
         | None => od_get k (from_env_string exec_env vs)
         end
     end) /\
  (env = None <->
   from_env_file load_source vs = [] /\
   from_file exec_env read_file vs = [] /\
   from_env_string exec_env vs = []).
Proof.
  intros Hexec Hload env. subst env. rewrite get_env_merged. cbv zeta.
  assert (Hnd_str : forall s, NoDup (od_keys (snd (get_env_dict_from_string exec_env s)))).
  { intros s. unfold get_env_dict_from_string.
    destruct s as [[|c s]|]; try constructor.
    destruct (exec_env (String c s)) eqn:He; [constructor|].
    cbn. eapply Hexec, He. }
  assert (Hnd_file : NoDup (od_keys (from_file exec_env read_file vs))).
  { unfold from_file. destruct (file_name vs) as [[|c f]|]; try constructor.
    destruct (read_file (String c f)); [constructor | apply Hnd_str]. }
  assert (Hnd_env : NoDup (od_keys (from_env_file load_source vs))).
  { unfold from_env_file. destruct (env_file vs) as [[|c f]|]; try constructor.
    destruct (load_source (String c f)) eqn:Hl; [constructor|].
    eapply Hload, Hl. }
  set (merged := dict_update (dict_update (from_env_string exec_env vs)
                                          (from_file exec_env read_file vs))
                             (from_env_file load_source vs)).
  assert (Hget : forall k,
            od_get k merged =
            match od_get k (from_env_file load_source vs) with
            | Some v => Some v
            | None =>
                match od_get k (from_file exec_env read_file vs) with
                | Some v => Some v
                | None => od_get k (from_env_string exec_env vs)
                end
            end).
  { intros k. subst merged.
    rewrite od_get_dict_update by exact Hnd_env.
    rewrite od_get_dict_update by exact Hnd_file. reflexivity. }
  assert (Hempty : merged = [] <->
            from_env_file load_source vs = [] /\
            from_file exec_env read_file vs = [] /\
            from_env_string exec_env vs = []).
  { subst merged. rewrite !dict_update_empty_iff. tauto. }
  clearbody merged.
  destruct merged as [|b merged]; split.
  - exact Hget.
  - split; [intros _; now apply Hempty | reflexivity].
  - exact Hget.
  - split; [discriminate|]. intros H. apply Hempty in H. discriminate H.
Qed.

(** [get_env_dict_from_string] shows a dialog exactly when the evaluation
    of a non-empty string fails, and then gives the empty dictionary. *)
Lemma get_env_dict_from_string_failure (s : option string) :
  get_env_dict_from_string exec_env s = ([], snd (get_env_dict_from_string exec_env s)) \/
  exists e, get_env_dict_from_string exec_env s =
              ([EnvEvent (ErrorMessage ("EnvBlock Error:" ++ newline ++ e)%string)], []).
Proof.
  unfold get_env_dict_from_string.
  destruct s as [[|c s]|]; try (now left).
  destruct (exec_env (String c s)) as [e|d]; [right; now exists e | now left].
Qed.
End GetEnvFacts.

Lemma get_env_precedence_witness :
  let env := snd (get_env sample_exec sample_read sample_load sample_settings []) in
  (forall k,
     od_get k (match env with Some d => d | None => [] end) =
     match od_get k (from_env_file sample_load sample_settings) with
     | Some v => Some v
     | None =>
         match od_get k (from_file sample_exec sample_read sample_settings) with
         | Some v => Some v
         | None => od_get k (from_env_string sample_exec sample_settings)
         end
     end) /\
  (env = None <->
   from_env_file sample_load sample_settings = [] /\
   from_file sample_exec sample_read sample_settings = [] /\
   from_env_string sample_exec sample_settings = []).
Proof.
  apply (@get_env_precedence Z sample_exec sample_read sample_load sample_settings []).
  - intros s d. unfold sample_exec.
    destruct (String.eqb s "a = 1; b = 1; c = 1");
      [|destruct (String.eqb s "b = 2; c = 2")]; intros H;
      try discriminate H; injection H as <-;
      repeat constructor; simpl; intuition discriminate.
  - intros path d. unfold sample_load.
    destruct (String.eqb path "env.py"); intros H;
      try discriminate H; injection H as <-;
      repeat constructor; simpl; intuition discriminate.
Defined.

(** The three sources of the sample: [a] comes from the env string, [b] from
    the env block of the file, [c] from the env file. *)
Example get_env_sample :
  snd (get_env sample_exec sample_read sample_load sample_settings []) =
  Some [("a", 1); ("b", 2); ("c", 3)]%Z.
Proof. reflexivity. Qed.

(** ** [parse_env_block] on a text put together from lines *)

Lemma string_app_assoc (a b c : string) : ((a ++ b) ++ c = a ++ (b ++ c))%string.
Proof. induction a as [|x a IH]; [reflexivity|]. cbn. now rewrite IH. Qed.

Lemma string_app_empty_r (a : string) : (a ++ "")%string = a.
Proof. induction a as [|x a IH]; [reflexivity|]. cbn. now rewrite IH. Qed.

Lemma splitlines_from_line (line rest cur : string) :
  no_linebreak line = true ->
  splitlines_from cur (line ++ newline ++ rest)%string =
  (cur ++ line)%string :: splitlines_from "" rest.
Proof.
  revert cur. induction line as [|c line IH]; intros cur Hn.
  - cbn. now rewrite string_app_empty_r.
  - cbn [no_linebreak] in Hn. apply andb_prop in Hn. destruct Hn as [Hc Hn].
    apply negb_true_iff in Hc.
    cbn [append splitlines_from]. rewrite Hc.
    rewrite IH by exact Hn. rewrite string_app_assoc. reflexivity.
Qed.

Lemma join_cons (line : string) (l : string) (lines : list string) :
  join newline (line :: l :: lines) =
  (line ++ newline ++ join newline (l :: lines))%string.
Proof. reflexivity. Qed.

Lemma splitlines_join_front (front rest : list string) :
  Forall (fun l => no_linebreak l = true) front ->
  rest <> [] ->
  splitlines (join newline (front ++ rest)) =
  front ++ splitlines (join newline rest).
Proof.
  intros Hf Hrest. induction Hf as [|l front Hl _ IH]; [reflexivity|].
  cbn [app]. destruct (front ++ rest) as [|l' lines] eqn:Hfr.
  { destruct front; [contradiction | discriminate]. }
  rewrite join_cons. unfold splitlines in *.
  rewrite splitlines_from_line by exact Hl. cbn [append]. now rewrite IH.
Qed.

(** X15. A text put together from lines with a block between two marker
    lines gives back the block: when the lines before the first marker and
    the lines of the block hold no marker and no line break, and the block
    is not empty, [parse_env_block] of the lines joined by newlines is the
    block joined by newlines, whatever follows the second marker. *)
Theorem parse_env_block_of_joined_lines (pre body post : list string) :
  Forall (fun l => no_linebreak l = true) (pre ++ body) ->
  ~ In delimeter pre -> ~ In delimeter body -> body <> [] ->
  parse_env_block (join newline (pre ++ delimeter :: body ++ delimeter :: post)) =
  Some (join newline body).
Proof.
  intros Hlines Hpre Hbody Hne.
  apply Forall_app in Hlines. destruct Hlines as [Hl1 Hl2].
  assert (Hsplit : exists tail,
            splitlines (join newline (pre ++ delimeter :: body ++ delimeter :: post)) =
            pre ++ delimeter :: body ++ delimeter :: tail).
  { rewrite splitlines_join_front by (assumption || discriminate).
    change (delimeter :: body ++ delimeter :: post)
      with ([delimeter] ++ (body ++ delimeter :: post)).
    rewrite splitlines_join_front;
      [|repeat constructor|destruct body; discriminate].
    rewrite splitlines_join_front by (assumption || discriminate).
    destruct post as [|l post].
    - exists []. reflexivity.
    - exists (splitlines (join newline (l :: post))).
      change (delimeter :: l :: post) with ([delimeter] ++ (l :: post)).
      rewrite splitlines_join_front; [reflexivity|repeat constructor|discriminate]. }
  destruct Hsplit as [tail Hsplit].
  unfold parse_env_block, parse_env_lines. rewrite Hsplit.
  rewrite parse_env_loop_outside by assumption.
  cbn [parse_env_loop]. rewrite String.eqb_refl.
  rewrite parse_env_loop_inside by assumption.
  cbn [parse_env_loop]. rewrite String.eqb_refl.
  destruct body; [contradiction | reflexivity].
Qed.

Lemma parse_env_block_of_joined_lines_witness :
  parse_env_block
    (join newline (["# api"] ++ delimeter :: ["a = 1"; "b = 2"] ++ delimeter :: ["get('/a')"; ""])) =
  Some (join newline ["a = 1"; "b = 2"]).
Proof.
  apply (@parse_env_block_of_joined_lines ["# api"] ["a = 1"; "b = 2"] ["get('/a')"; ""]).
  - repeat constructor.
  - simpl. intros [H|[]]. discriminate H.
  - simpl. intros [H|[H|[]]]; discriminate H.
  - discriminate.
Defined.

End CoreExtra.

(* ================================================================== *)
(** * Further properties of the history                                 *)
(* ================================================================== *)
Module HistoryExtra.

Import Python Core RequestCommands HistoryStore Invariants PythonFacts Samples.
Import CoreSpec HistorySpec CoreExtra.
Open Scope string_scope.
Open Scope list_scope.

(** ** Responses without a result *)

Lemma insert_new_requests_filter ts vs batch rh :
  insert_new_requests ts vs batch rh =
  insert_new_requests ts vs (filter has_result batch) rh.
Proof.
  revert rh. induction batch as [|r batch IH]; intros rh; [reflexivity|].
  cbn [filter]. unfold has_result at 1.
  destruct (response r) as [res|] eqn:Hres.
  - cbn [insert_new_requests]. rewrite Hres.
    destruct (py_contains (history_key res) rh) as [e|present]; [reflexivity|].
    cbn [bind].
    destruct (if present then py_pop (history_key res) rh else ret rh) as [e|rh1];
      [reflexivity|].
    cbn [bind].
    destruct (py_setitem (history_key res) (history_entry ts vs r res) rh1) as [e|rh2];
      [reflexivity|].
    cbn [bind]. apply IH.
  - cbn [insert_new_requests]. rewrite Hres. apply IH.
Qed.

(** X16. Responses without a result never reach the history: persisting a
    batch is persisting its responses that have a result, whatever the file
    and the settings are. *)
Theorem persist_requests_skips_failed cfg vs ts fs batch :
  persist_requests cfg vs ts fs batch =
  persist_requests cfg vs ts fs (filter has_result batch).
Proof.
  unfold persist_requests.
  destruct (history_file cfg) as [[|c name]|]; try reflexivity.
  destruct fs as [[|]|[e|] w [|j|]]; try reflexivity;
    cbn [json_loads bind ret];
    rewrite insert_new_requests_filter; reflexivity.
Qed.

(** ** What a failure leaves behind *)

Lemma computed_object ts vs batch (max_entries : Z) members :
  (rh <- json_loads (Doc (JObj members)) ;;
   rh1 <- insert_new_requests ts vs batch rh ;;
   remove_oldest max_entries rh1) =
  ret (JObj (trimmed max_entries (inserted ts vs batch (loaded members)))).
Proof.
  cbn [json_loads object_pairs_hook bind ret]. fold (loaded members).
  rewrite insert_new_requests_obj by (unfold loaded; apply od_of_pairs_NoDup).
  cbn [bind ret]. apply remove_oldest_obj.
Qed.

(** X17. [persist_requests] writes the file only when it succeeds silently:
    whenever it raises, shows a dialog, or finds [history_file] unset or
    empty, the file is exactly as it was. *)
Theorem persist_requests_failure_keeps_file cfg vs ts fs batch fs' evs r :
  persist_requests cfg vs ts fs batch = (fs', evs, r) ->
  (exists e, r = inl e) \/ evs <> [] \/
    history_file cfg = None \/ history_file cfg = Some EmptyString ->
  fs' = fs.
Proof.
  unfold persist_requests.
  destruct (history_file cfg) as [[|c name]|] eqn:Hname;
    try (intros H _; now injection H as <- _ _).
  intros Hp Hfail.
  assert (Hsilent : (evs = [] /\ r = ret tt) -> False).
  { intros [-> ->]. destruct Hfail as [[e He]|[He|[He|He]]];
      try discriminate; now apply He. }
  destruct fs as [[|]|[e|] w t]; cbv beta iota in Hp.
  - exfalso. apply Hsilent.
    change (Doc (JObj [])) with (Doc (JObj (@nil (string * json)))) in Hp.
    cbn [ret] in Hp. fold (@ret json) in Hp.
    rewrite (computed_object ts vs batch _ []) in Hp.
    cbn in Hp. injection Hp as _ <- <-. now split.
  - now injection Hp as <- _ _.
  - now injection Hp as <- _ _.
  - destruct t as [|j|]; cbn [ret] in Hp.
    + destruct w.
      * exfalso. apply Hsilent.
        fold (@ret json) in Hp.
        rewrite (computed_object ts vs batch _ []) in Hp.
        cbn in Hp. injection Hp as _ <- <-. now split.
      * fold (@ret json) in Hp.
        rewrite (computed_object ts vs batch _ []) in Hp.
        cbn in Hp. now injection Hp as <- _ _.
    + destruct (bind _ _) as [e|rh] in Hp; [now injection Hp as <- _ _|].
      destruct w; cbn in Hp.
      * exfalso. apply Hsilent. injection Hp as _ <- <-. now split.
      * now injection Hp as <- _ _.
    + cbn in Hp. now injection Hp as <- _ _.
Qed.

Lemma persist_requests_failure_keeps_file_witness :
  Present None true Malformed = Present None true Malformed.
Proof.
  apply (@persist_requests_failure_keeps_file cfg views now
           (Present None true Malformed) [ok 0 "/a"]
           (Present None true Malformed) [] (raise ValueError)).
  - reflexivity.
  - left. now exists ValueError.
Defined.

(** ** Looking up after the insertions *)

Lemma od_get_app (k : string) (d1 d2 : OrderedDict json) :
  od_get k (d1 ++ d2) =
  match od_get k d1 with
  | Some v => Some v
  | None => od_get k d2
  end.
Proof.
  induction d1 as [|[k0 v0] d1 IH]; [reflexivity|].
  cbn [app od_get]. destruct (String.eqb k k0); [reflexivity | exact IH].
Qed.

Lemma od_get_remove_other (k key : string) (d : OrderedDict json) :
  k <> key -> od_get k (od_remove key d) = od_get k d.
Proof.
  intros Hne. induction d as [|[k0 v0] d IH]; [reflexivity|].
  cbn [od_remove]. destruct (String.eqb_spec key k0) as [->|Hne0]; cbn [od_get].
  - destruct (String.eqb_spec k k0); [congruence | reflexivity].
  - now rewrite IH.
Qed.

Lemma od_get_touch (k key : string) (v : json) (d : OrderedDict json) :
  NoDup (od_keys d) ->
  od_get k (od_touch key v d) = if String.eqb k key then Some v else od_get k d.
Proof.
  intros Hnd. unfold od_touch. rewrite od_get_app.
  destruct (String.eqb_spec k key) as [->|Hne].
  - rewrite od_get_absent.
    + cbn. now rewrite String.eqb_refl.
    + apply od_remove_gone. exact Hnd.
  - rewrite od_get_remove_other by exact Hne.
    cbn. destruct (String.eqb_spec k key); [congruence|].
    now destruct (od_get k d).
Qed.

Lemma inserted_lookup ts vs batch d k :
  NoDup (od_keys d) ->
  od_get k (inserted ts vs batch d) =
  match latest ts vs k batch with
  | Some e => Some e
  | None => od_get k d
  end.
Proof.
  revert d. induction batch as [|r batch IH]; intros d Hnd; [reflexivity|].
  cbn [inserted latest].
  destruct (response r) as [res|].
  - rewrite IH by now apply od_touch_NoDup.
    destruct (latest ts vs k batch); [reflexivity|].
    rewrite od_get_touch by exact Hnd.
    now destruct (String.eqb k (history_key res)).
  - rewrite IH by exact Hnd. now destruct (latest ts vs k batch).
Qed.

(** X18. After the insertion loop a key holds the entry of the last response
    of the batch with that method and url, if there is one, and otherwise
    what it held before: the entries of other requests are not touched. *)
Theorem insert_new_requests_lookup ts vs batch d :
  NoDup (od_keys d) ->
  exists d',
    insert_new_requests ts vs batch (JObj d) = ret (JObj d') /\
    NoDup (od_keys d') /\
    forall k,
      od_get k d' =
      match latest ts vs k batch with
      | Some e => Some e
      | None => od_get k d
      end.
Proof.
  intros Hnd. exists (inserted ts vs batch d).
  split; [now apply insert_new_requests_obj|].
  split; [now apply inserted_NoDup|].
  intros k. now apply inserted_lookup.
Qed.

Lemma insert_new_requests_lookup_witness :
  exists d',
    insert_new_requests now views [ok 0 "/k2"; failed 1 "/k1"; again]
      (JObj three_entries) = ret (JObj d') /\
    NoDup (od_keys d') /\
    forall k,
      od_get k d' =
      match latest now views k [ok 0 "/k2"; failed 1 "/k1"; again] with
      | Some e => Some e
      | None => od_get k three_entries
      end.
Proof.
  apply (@insert_new_requests_lookup now views [ok 0 "/k2"; failed 1 "/k1"; again]
           three_entries).
  repeat constructor; simpl; intuition discriminate.
Defined.

(** ** New requests *)

Lemma inserted_fresh ts vs batch d :
  NoDup (od_keys d ++ od_keys (entries ts vs batch)) ->
  inserted ts vs batch d = d ++ entries ts vs batch.
Proof.
  revert d. induction batch as [|r batch IH]; intros d Hnd.
  - cbn. now rewrite app_nil_r.
  - cbn [inserted entries] in *.
    destruct (response r) as [res|]; [|now apply IH].
    cbn [od_keys map fst] in Hnd. fold (od_keys (entries ts vs batch)) in Hnd.
    assert (Hfresh : ~ In (history_key res) (od_keys d)).
    { intros Hin. apply NoDup_remove_2 in Hnd. apply Hnd.
      apply in_or_app. now left. }
    unfold od_touch. rewrite od_remove_absent by exact Hfresh.
    rewrite IH.
    + now rewrite <- app_assoc.
    + unfold od_keys in *. rewrite map_app. cbn [map fst].
      rewrite <- app_assoc. exact Hnd.
Qed.

(** X19. When the requests of the batch are new and pairwise different, the
    history that is written is the old entries followed by the new ones in
    the order of the batch, without its oldest entries beyond the bound. *)
Theorem persist_requests_new_requests cfg vs ts name members batch :
  history_file cfg = Some name -> name <> "" ->
  NoDup (od_keys (loaded members) ++ od_keys (entries ts vs batch)) ->
  persist_requests cfg vs ts (Present None true (Doc (JObj members))) batch =
  (Present None true
     (Doc (JObj (trimmed (max_entries_of cfg)
                   (loaded members ++ entries ts vs batch)))),
   [], ret tt).
Proof.
  intros Hname Hne Hnd.
  rewrite (persist_requests_object cfg vs ts members batch Hname Hne).
  now rewrite inserted_fresh.
Qed.

Lemma persist_requests_new_requests_witness :
  persist_requests cfg views now (Present None true (Doc (JObj [])))
      [ok 0 "/k1"; ok 1 "/k2"; ok 2 "/k3"] =
  (Present None true
     (Doc (JObj (trimmed (max_entries_of cfg)
                   (loaded [] ++ entries now views [ok 0 "/k1"; ok 1 "/k2"; ok 2 "/k3"])))),
   [], ret tt).
Proof.
  apply (@persist_requests_new_requests cfg views now "history.json" []
           [ok 0 "/k1"; ok 1 "/k2"; ok 2 "/k3"]).
  - reflexivity.
  - discriminate.
  - repeat constructor; simpl; intuition discriminate.
Defined.

(** With a bound of two, three new requests leave the last two. *)
Example persist_three_keep_two :
  persist_requests cfg views now (Missing true)
      [ok 0 "/k1"; ok 1 "/k2"; ok 2 "/k3"] =
  (Present None true
     (Doc (JObj [("GET: /k2", history_entry now views (ok 1 "/k2") (mkHttpResponse "GET" "/k2" 200));
                 ("GET: /k3", history_entry now views (ok 2 "/k3") (mkHttpResponse "GET" "/k3" 200))])),
   [], ret tt).
Proof. reflexivity. Qed.

(** ** Reading back what was written *)

Lemma json_induction (P : json -> Prop) :
  P JNull -> (forall b, P (JBool b)) -> (forall z, P (JNum z)) ->
  (forall s, P (JStr s)) ->
  (forall items, Forall P items -> P (JArr items)) ->
  (forall members, Forall (fun kv => P (snd kv)) members -> P (JObj members)) ->
  forall j, P j.
Proof.
  intros HNull HBool HNum HStr HArr HObj.
  fix IH 1. intros [|b|z|s|items|members].
  - exact HNull.
  - apply HBool.
  - apply HNum.
  - apply HStr.
  - apply HArr. induction items as [|x items IHitems]; constructor.
    + apply IH.
    + exact IHitems.
  - apply HObj. induction members as [|[k v] members IHmembers]; constructor.
    + apply IH.
    + exact IHmembers.
Qed.

Lemma od_setitem_In (key : string) (v : json) (d : OrderedDict json) kv :
  In kv (od_setitem key v d) -> kv = (key, v) \/ In kv d.
Proof.
  induction d as [|[k0 w] d IH]; cbn [od_setitem].
  - intros [<-|[]]. now left.
  - destruct (String.eqb_spec key k0) as [->|Hne].
    + intros [<-|H]; [now left | right; now right].
    + intros [<-|H]; [right; now left|].
      destruct (IH H) as [->|H']; [now left | right; now right].
Qed.

Lemma od_of_pairs_In (pairs : list (string * json)) kv :
  In kv (od_of_pairs pairs) -> In kv pairs.
Proof.
  unfold od_of_pairs.
  assert (H : forall acc,
            In kv (fold_left (fun d p => od_setitem (fst p) (snd p) d) pairs acc) ->
            In kv acc \/ In kv pairs).
  { induction pairs as [|[k v] pairs IH]; intros acc Hin; [now left|].
    cbn [fold_left fst snd] in Hin.
    destruct (IH _ Hin) as [Hacc|Hp]; [|right; now right].
    destruct (od_setitem_In _ _ _ _ Hacc) as [->|H']; [right; now left | now left]. }
  intros Hin. destruct (H [] Hin) as [[]|Hp]. exact Hp.
Qed.

Lemma map_fixed {A : Type} (f : A -> A) (l : list A) :
  (forall x, In x l -> f x = x) -> map f l = l.
Proof.
  induction l as [|x l IH]; intros H; [reflexivity|].
  cbn. rewrite H by now left. rewrite IH; [reflexivity|].
  intros y Hy. apply H. now right.
Qed.

(** A mapping with distinct keys and values that the hook leaves alone is
    loaded as it is. *)
Lemma loaded_fixed (d : OrderedDict json) :
  NoDup (od_keys d) ->
  (forall kv, In kv d -> object_pairs_hook (snd kv) = snd kv) ->
  loaded d = d.
Proof.
  intros Hnd Hval. unfold loaded.
  rewrite map_fixed.
  - now apply od_of_pairs_distinct.
  - intros [k v] Hin. pose proof (Hval _ Hin) as Hv.
    cbn [fst snd] in *. now rewrite Hv.
Qed.

(** Loading is idempotent: what [json.loads] returns, written out and loaded
    again, is the same value. *)
Lemma object_pairs_hook_idempotent (j : json) :
  object_pairs_hook (object_pairs_hook j) = object_pairs_hook j.
Proof.
  induction j as [|b|z|s|items IH|members IH] using json_induction;
    try reflexivity.
  - cbn [object_pairs_hook]. f_equal. rewrite map_map.
    apply map_ext_in. intros x Hx. rewrite Forall_forall in IH. now apply IH.
  - cbn [object_pairs_hook]. f_equal. fold (loaded members).
    fold (loaded (loaded members)).
    apply loaded_fixed; [apply od_of_pairs_NoDup|].
    intros kv Hin. unfold loaded in Hin. apply od_of_pairs_In in Hin.
    apply in_map_iff in Hin. destruct Hin as ([k v] & <- & Hin).
    cbn [fst snd]. rewrite Forall_forall in IH. now apply (IH (k, v)).
Qed.

Lemma history_entry_fixed ts vs r res :
  object_pairs_hook (history_entry ts vs r res) = history_entry ts vs r res.
Proof.
  unfold history_entry. destruct (env_string vs), (file_name vs), (env_file vs);
    reflexivity.
Qed.

Lemma loaded_hooked (members : list (string * json)) : hooked (loaded members).
Proof.
  intros kv Hin. unfold loaded in Hin. apply od_of_pairs_In in Hin.
  apply in_map_iff in Hin. destruct Hin as ([k v] & <- & _).
  apply object_pairs_hook_idempotent.
Qed.

Lemma od_remove_In (key : string) (d : OrderedDict json) kv :
  In kv (od_remove key d) -> In kv d.
Proof.
  induction d as [|[k0 w] d IH]; [auto|].
  cbn [od_remove]. destruct (String.eqb key k0).
  - intros H. now right.
  - intros [<-|H]; [now left | right; now apply IH].
Qed.

Lemma inserted_hooked ts vs batch d : hooked d -> hooked (inserted ts vs batch d).
Proof.
  revert d. induction batch as [|r batch IH]; intros d Hd; [exact Hd|].
  cbn [inserted]. destruct (response r) as [res|]; [|now apply IH].
  apply IH. intros kv Hin. unfold od_touch in Hin.
  apply in_app_or in Hin. destruct Hin as [Hin|[<-|[]]].
  - apply Hd. eapply od_remove_In, Hin.
  - apply history_entry_fixed.
Qed.

Lemma skipn_In {A : Type} (n : nat) (l : list A) x : In x (skipn n l) -> In x l.
Proof.
  revert l. induction n as [|n IH]; intros l; [auto|].
  destruct l as [|y l]; [auto|]. cbn. intros H. right. now apply IH.
Qed.

Lemma skipn_keys_NoDup (n : nat) (d : OrderedDict json) :
  NoDup (od_keys d) -> NoDup (od_keys (skipn n d)).
Proof.
  revert d. induction n as [|n IH]; intros d Hnd; [exact Hnd|].
  destruct d as [|kv d]; [exact Hnd|].
  cbn in *. apply IH. now inversion Hnd.
Qed.

(** What [persist_requests] writes: distinct keys, and values that loading
    leaves alone. *)
Lemma written_fixed cfg ts vs batch members :
  let final := trimmed (max_entries_of cfg) (inserted ts vs batch (loaded members)) in
  NoDup (od_keys final) /\ loaded final = final.
Proof.
  cbv zeta.
  assert (Hnd : NoDup (od_keys (trimmed (max_entries_of cfg)
                                  (inserted ts vs batch (loaded members))))).
  { unfold trimmed. apply skipn_keys_NoDup, inserted_NoDup.
    unfold loaded. apply od_of_pairs_NoDup. }
  split; [exact Hnd|].
  apply loaded_fixed; [exact Hnd|].
  intros kv Hin. unfold trimmed in Hin. apply skipn_In in Hin.
  revert kv Hin. apply inserted_hooked, loaded_hooked.
Qed.

(** X20. The history that [persist_requests] writes has at most one entry
    per key, and the next call reads it back as it was written:
    [json.loads] with the [OrderedDict] hook returns the very mapping that
    was dumped, entries and order. *)
Theorem persist_requests_round_trip cfg vs ts name members batch :
  history_file cfg = Some name -> name <> "" ->
  exists final,
    persist_requests cfg vs ts (Present None true (Doc (JObj members))) batch =
      (Present None true (json_dumps (JObj final)), [], ret tt) /\
    NoDup (od_keys final) /\
    json_loads (json_dumps (JObj final)) = ret (JObj final).
Proof.
  intros Hname Hne.
  exists (trimmed (max_entries_of cfg) (inserted ts vs batch (loaded members))).
  split; [now apply persist_requests_object with (name := name)|].
  destruct (written_fixed cfg ts vs batch members) as [Hnd Hfix].
  split; [exact Hnd|].
  set (final := trimmed (max_entries_of cfg) (inserted ts vs batch (loaded members))) in *.
  change (@ret json (JObj (loaded final)) = ret (JObj final)).
  now rewrite Hfix.
Qed.

Lemma persist_requests_round_trip_witness :
  exists final,
    persist_requests cfg views now (Present None true (Doc (JObj three_entries)))
        [again] =
      (Present None true (json_dumps (JObj final)), [], ret tt) /\
    NoDup (od_keys final) /\
    json_loads (json_dumps (JObj final)) = ret (JObj final).
Proof.
  apply (@persist_requests_round_trip cfg views now "history.json" three_entries [again]).
  - reflexivity.
  - discriminate.
Defined.

Lemma trimmed_idempotent (max_entries : Z) (d : OrderedDict json) :
  trimmed max_entries (trimmed max_entries d) = trimmed max_entries d.
Proof.
  unfold trimmed, overflow. rewrite length_skipn, skipn_skipn.
  set (n := Z.to_nat (Z.of_nat (List.length d) - max_entries)).
  set (n' := Z.to_nat (Z.of_nat (List.length d - n) - max_entries)).
  destruct (Nat.eq_dec n' 0) as [->|Hn']; [reflexivity|].
  rewrite !skipn_all2 by (subst n n'; lia). reflexivity.
Qed.

(** X21. Persisting is idempotent on its own output: after any call that
    wrote the history, a call with an empty batch (at any later time) writes
    the same history again and leaves the file as it is. *)
Theorem persist_requests_empty_batch_after cfg vs ts ts' name members batch :
  history_file cfg = Some name -> name <> "" ->
  let written :=
    fst (fst (persist_requests cfg vs ts
                (Present None true (Doc (JObj members))) batch)) in
  persist_requests cfg vs ts' written [] = (written, [], ret tt).
Proof.
  intros Hname Hne written. subst written.
  rewrite (persist_requests_object cfg vs ts members batch Hname Hne).
  cbn [fst].
  rewrite (persist_requests_object cfg vs ts' _ [] Hname Hne).
  destruct (written_fixed cfg ts vs batch members) as [_ Hfix].
  cbn [inserted]. rewrite Hfix, trimmed_idempotent. reflexivity.
Qed.

Lemma persist_requests_empty_batch_after_witness :
  let written :=
    fst (fst (persist_requests cfg views now
                (Present None true (Doc (JObj three_entries))) [ok 0 "/k4"])) in
  persist_requests cfg views (now + 60)%Z written [] = (written, [], ret tt).
Proof.
  apply (@persist_requests_empty_batch_after cfg views now (now + 60)%Z
           "history.json" three_entries [ok 0 "/k4"]).
  - reflexivity.
  - discriminate.
Defined.

End HistoryExtra.

(* ================================================================== *)
(** * Further properties of request_commands.py                         *)
(* ================================================================== *)
Module RequestCommandsExtra.

Import Python Core RequestCommands Samples CoreExtra.
Open Scope string_scope.
Open Scope list_scope.

(** ** [base_url] *)

Lemma before_question_mark_none (u : string) :
  no_question_mark u = true -> before_question_mark u = u.
Proof.
  induction u as [|c u IH]; [reflexivity|].
  cbn. destruct (Ascii.eqb c "?"); [discriminate|].
  cbn. intros H. now rewrite IH.
Qed.

Lemma before_question_mark_app (u q : string) :
  no_question_mark u = true ->
  before_question_mark (u ++ "?" ++ q)%string = u.
Proof.
  change ("?" ++ q)%string with (String "?"%char q).
  induction u as [|c u IH]; [reflexivity|].
  cbn. destruct (Ascii.eqb c "?"); [discriminate|].
  cbn. intros H. now rewrite IH.
Qed.

Lemma before_question_mark_idempotent (u : string) :
  before_question_mark (before_question_mark u) = before_question_mark u.
Proof.
  induction u as [|c u IH]; [reflexivity|].
  cbn. destruct (Ascii.eqb c "?") eqn:Hc; [reflexivity|].
  cbn. now rewrite Hc, IH.
Qed.

Lemma no_question_mark_app (u v : string) :
  no_question_mark (u ++ v)%string = no_question_mark u && no_question_mark v.
Proof.
  induction u as [|c u IH]; [reflexivity|].
  cbn. rewrite IH. now rewrite andb_assoc.
Qed.

Lemma strip_trailing_slash_app (u : string) :
  strip_trailing_slash (u ++ "/")%string = u.
Proof.
  induction u as [|c u IH]; [reflexivity|].
  cbn [append strip_trailing_slash].
  destruct (u ++ "/")%string eqn:Hu.
  - destruct u; discriminate.
  - now rewrite IH.
Qed.

Lemma strip_trailing_slash_none (u : string) :
  ends_with_slash u = false -> strip_trailing_slash u = u.
Proof.
  induction u as [|c u IH]; [reflexivity|].
  cbn [ends_with_slash strip_trailing_slash].
  destruct u as [|c' u].
  - intros ->. reflexivity.
  - intros H. now rewrite IH.
Qed.

(** The base url depends only on what is before the first [?]. *)
Lemma base_url_before_question_mark (u : string) :
  base_url (before_question_mark u) = base_url u.
Proof. unfold base_url. now rewrite before_question_mark_idempotent. Qed.

(** X22. A url without a query string that does not end in a slash is its
    own base url, and it is the base url of every url made from it by adding
    one trailing slash, a query string, or both. *)
Theorem base_url_ignores_query_and_slash (u q : string) :
  no_question_mark u = true -> ends_with_slash u = false ->
  base_url u = u /\
  base_url (u ++ "/") = u /\
  base_url (u ++ "?" ++ q) = u /\
  base_url (u ++ "/" ++ "?" ++ q) = u.
Proof.
  intros Hq Hs. unfold base_url.
  assert (Hq' : no_question_mark (u ++ "/")%string = true).
  { rewrite no_question_mark_app, Hq. reflexivity. }
  split; [|split; [|split]].
  - rewrite before_question_mark_none by exact Hq.
    now apply strip_trailing_slash_none.
  - rewrite before_question_mark_none by exact Hq'.
    apply strip_trailing_slash_app.
  - rewrite before_question_mark_app by exact Hq.
    now apply strip_trailing_slash_none.
  - replace (u ++ "/" ++ "?" ++ q)%string with ((u ++ "/") ++ "?" ++ q)%string.
    + rewrite before_question_mark_app by exact Hq'.
      apply strip_trailing_slash_app.
    + apply string_app_assoc.
Qed.

Lemma base_url_ignores_query_and_slash_witness :
  base_url "http://x.org/api" = "http://x.org/api" /\
  base_url ("http://x.org/api" ++ "/") = "http://x.org/api" /\
  base_url ("http://x.org/api" ++ "?" ++ "page=2&q=a/b?") = "http://x.org/api" /\
  base_url ("http://x.org/api" ++ "/" ++ "?" ++ "page=2&q=a/b?") = "http://x.org/api".
Proof.
  apply (@base_url_ignores_query_and_slash "http://x.org/api" "page=2&q=a/b?");
    reflexivity.
Defined.

(** X23. [base_url] removes one trailing slash, not all of them: a url that
    ends in two slashes keeps one, and only a second application removes it,
    so [base_url] is not idempotent. *)
Theorem base_url_removes_one_slash (u : string) :
  no_question_mark u = true ->
  base_url (u ++ "/" ++ "/") = (u ++ "/")%string /\
  base_url (base_url (u ++ "/" ++ "/")) = u.
Proof.
  intros Hq.
  assert (Hq1 : no_question_mark (u ++ "/")%string = true).
  { rewrite no_question_mark_app, Hq. reflexivity. }
  assert (Hq2 : no_question_mark ((u ++ "/") ++ "/")%string = true).
  { rewrite no_question_mark_app, Hq1. reflexivity. }
  assert (Happ : (u ++ "/" ++ "/")%string = ((u ++ "/") ++ "/")%string).
  { symmetry. apply string_app_assoc. }
  assert (H1 : base_url (u ++ "/" ++ "/") = (u ++ "/")%string).
  { rewrite Happ. unfold base_url.
    rewrite before_question_mark_none by exact Hq2.
    apply strip_trailing_slash_app. }
  split; [exact H1|].
  rewrite H1. unfold base_url.
  rewrite before_question_mark_none by exact Hq1.
  apply strip_trailing_slash_app.
Qed.

Lemma base_url_removes_one_slash_witness :
  base_url ("http://x.org" ++ "/" ++ "/") = ("http://x.org" ++ "/")%string /\
  base_url (base_url ("http://x.org" ++ "/" ++ "/")) = "http://x.org".
Proof. apply (@base_url_removes_one_slash "http://x.org"). reflexivity. Defined.

(** ** The name of a tab with pending requests *)

(** X24. A tab that has a name keeps one width while its request is
    pending: at every count the name set by
    [show_activity_for_pending_requests] is four characters longer than the
    tab's own name, and the indicator in it is drawn with at least one
    space. *)
Theorem pending_view_name_width (name : string) (count : nat) (activity : string) :
  name <> "" ->
  String.length (fst (pending_view_name (Some name) count activity)) =
  String.length name + 4 /\
  0 < Nat.min ACTIVITY_SPACES (String.length name).
Proof.
  intros Hname.
  assert (Hlen : 0 < String.length name).
  { destruct name; [congruence | cbn; lia]. }
  assert (Hspaces : 0 < Nat.min ACTIVITY_SPACES (String.length name)).
  { unfold ACTIVITY_SPACES. lia. }
  split; [|exact Hspaces].
  unfold pending_view_name. destruct name as [|c name]; [congruence|].
  cbv zeta. cbn [fst]. unfold ljust.
  rewrite string_length_app, spaces_str_length, indicator_length by exact Hspaces.
  lia.
Qed.

Lemma pending_view_name_width_witness :
  String.length (fst (pending_view_name (Some "GET: /a") 12 "[=]")) =
  String.length "GET: /a" + 4 /\
  0 < Nat.min ACTIVITY_SPACES (String.length "GET: /a").
Proof. apply pending_view_name_width. discriminate. Defined.

(** ** Response views *)

Lemma views_of_In (sheets : list (option View)) (v : View) :
  In v (views_of sheets) <-> In (Some v) sheets.
Proof.
  induction sheets as [|[w|] sheets IH]; cbn.
  - tauto.
  - rewrite IH. split; intros [H|H]; auto; left; congruence.
  - rewrite IH. split; [auto|]. intros [H|H]; [discriminate | exact H].
Qed.

Lemma truthy_str_ne (s : string) : truthy_str s = true <-> s <> "".
Proof. destruct s; cbn; split; congruence. Qed.

(** X25. Every view that [response_views_with_matching_request] returns is
    a response view.  Called from a response view (a replay) it returns that
    view alone; otherwise it returns exactly the views of the window's
    sheets that are response views and carry a request with the same,
    non-empty method and a non-empty url with the same base url. *)
Theorem response_views_with_matching_request_sound self_view sheets method_ url_ v :
  In v (response_views_with_matching_request self_view sheets method_ url_) <->
  (response_view self_view = true /\ v = self_view) \/
  (response_view self_view = false /\
   In (Some v) sheets /\ response_view v = true /\
   exists m u,
     view_request v = Some (m, u) /\ m <> "" /\ u <> "" /\
     m = method_ /\ base_url url_ = base_url u).
Proof.
  unfold response_views_with_matching_request.
  destruct (response_view self_view) eqn:Hself.
  - cbn. split.
    + intros [<-|[]]. left. now split.
    + intros [[_ ->]|[H _]]; [now left | discriminate].
  - rewrite views_of_In, filter_In. unfold matching_view.
    split.
    + intros [Hin Hm]. right. split; [reflexivity|]. split; [exact Hin|].
      destruct (response_view v); [|discriminate]. split; [reflexivity|].
      cbn [andb] in Hm. destruct (view_request v) as [[m u]|]; [|discriminate].
      apply andb_prop in Hm. destruct Hm as [Hm Hb].
      apply andb_prop in Hm. destruct Hm as [Hm He].
      apply andb_prop in Hm. destruct Hm as [Htm Htu].
      exists m, u. repeat split.
      * now apply truthy_str_ne.
      * now apply truthy_str_ne.
      * now apply String.eqb_eq.
      * now apply String.eqb_eq.
    + intros [[H _]|(_ & Hin & Hrv & m & u & Hreq & Hm & Hu & <- & Hb)];
        [discriminate|].
      split; [exact Hin|]. rewrite Hrv, Hreq. cbn [andb].
      rewrite (proj2 (truthy_str_ne m) Hm), (proj2 (truthy_str_ne u) Hu).
      rewrite String.eqb_refl, Hb, String.eqb_refl. reflexivity.
Qed.

(** X26. A response view that was tagged with a response by
    [set_request_setting_on_view] is found again by
    [response_views_with_matching_request] for the method of that response
    and any url with the same base url (another query string, a trailing
    slash), provided the method and the url before [?] are not empty. *)
Theorem tagged_view_is_found self_view sheets view res url_ :
  response_view self_view = false ->
  response_view view = true ->
  In (Some (set_request_setting_on_view view res)) sheets ->
  method res <> "" -> before_question_mark (url res) <> "" ->
  base_url url_ = base_url (url res) ->
  In (set_request_setting_on_view view res)
     (response_views_with_matching_request self_view sheets (method res) url_).
Proof.
  intros Hself Hrv Hin Hm Hu Hb.
  unfold response_views_with_matching_request. rewrite Hself.
  apply views_of_In, filter_In. split; [exact Hin|].
  unfold matching_view, set_request_setting_on_view.
  cbn [response_view view_request]. rewrite Hrv. cbn [andb].
  rewrite (proj2 (truthy_str_ne _) Hm), (proj2 (truthy_str_ne _) Hu).
  rewrite String.eqb_refl, base_url_before_question_mark, Hb, String.eqb_refl.
  reflexivity.
Qed.

Lemma tagged_view_is_found_witness :
  In (set_request_setting_on_view (mkView 2 true None)
        (mkHttpResponse "GET" "http://x.org/api/?page=1" 200))
     (response_views_with_matching_request (mkView 1 false None)
        [None; Some (mkView 1 false None);
         Some (set_request_setting_on_view (mkView 2 true None)
                 (mkHttpResponse "GET" "http://x.org/api/?page=1" 200))]
        "GET" "http://x.org/api?page=2").
Proof.
  apply (@tagged_view_is_found (mkView 1 false None) _ (mkView 2 true None)
           (mkHttpResponse "GET" "http://x.org/api/?page=1" 200)
           "http://x.org/api?page=2").
  - reflexivity.
  - reflexivity.
  - right. right. left. reflexivity.
  - discriminate.
  - discriminate.
  - reflexivity.
Defined.

End RequestCommandsExtra.
